(** * telegram-phone-parser-bot: phone normalizer, extractor and contact store

    A shallow embedding of [server.js] (both copies kept in the repository)
    and of the [Database] class, with the properties of the specification
    stated over it.

    - JavaScript strings are sequences of UTF-16 code units: [list N].
    - The three regular expressions of [PhoneParser] are terms of a small
      regex syntax run by a backtracking matcher (greedy quantifiers,
      ordered alternation), the way the JavaScript engine runs them.
    - The SQLite tables are lists of rows in rowid order; every statement
      the code issues is a function on that state, [CURRENT_TIMESTAMP]
      being its argument [now].
    - [server.js] holds two copies of the server, [ServerA] (lines 1-597)
      and [ServerB] (from line 597); the [Database] class is the third
      copy of the store. *)

From Stdlib Require Import String Ascii.
From Stdlib Require Import List NArith Arith Bool Lia.
From Stdlib Require Import Sorting.Sorted Sorting.Permutation.
Import ListNotations.

Set Implicit Arguments.

(* ================================================================== *)
(** * JavaScript strings *)
(* ================================================================== *)

Definition jschar := N.
Definition jsstring := list jschar.

(** An ASCII literal as a JavaScript string. *)
Definition js (s : string) : jsstring :=
  map N_of_ascii (list_ascii_of_string s).

Definition chr_eqb (a b : jschar) : bool := N.eqb a b.

Fixpoint str_eqb (a b : jsstring) : bool :=
  match a, b with
  | [], [] => true
  | x :: a', y :: b' => chr_eqb x y && str_eqb a' b'
  | _, _ => false
  end.

Module Chars.
Definition plus : jschar := 43%N.
Definition hyphen : jschar := 45%N.
Definition lparen : jschar := 40%N.
Definition rparen : jschar := 41%N.
Definition space : jschar := 32%N.
Definition percent : jschar := 37%N.
Definition underscore : jschar := 95%N.
Definition d7 : jschar := 55%N.
Definition d8 : jschar := 56%N.
Definition d9 : jschar := 57%N.
End Chars.

(** [\d] without the unicode flag: the ten ASCII digits. *)
Definition isDigit (c : jschar) : bool := (48 <=? c)%N && (c <=? 57)%N.

Definition isPlus (c : jschar) : bool := chr_eqb c Chars.plus.

(** [\s], which is also the set [String.prototype.trim] removes:
    WhiteSpace and LineTerminator code units. *)
Definition isSpace (c : jschar) : bool :=
  ((9 <=? c)%N && (c <=? 13)%N)
  || chr_eqb c 32%N || chr_eqb c 160%N || chr_eqb c 5760%N
  || ((8192 <=? c)%N && (c <=? 8202)%N)
  || chr_eqb c 8232%N || chr_eqb c 8233%N || chr_eqb c 8239%N
  || chr_eqb c 8287%N || chr_eqb c 12288%N || chr_eqb c 65279%N.

(** [str.startsWith(prefix)] *)
Fixpoint startsWith (s prefix : jsstring) {struct prefix} : bool :=
  match prefix, s with
  | [], _ => true
  | p :: prefix', c :: s' => chr_eqb c p && startsWith s' prefix'
  | _ :: _, [] => false
  end.

(** [str.substring(start)] and [str.substring(0, len)] *)
Definition substring_from (start : nat) (s : jsstring) : jsstring := skipn start s.
Definition substring_to (len : nat) (s : jsstring) : jsstring := firstn len s.

Fixpoint dropWhile (p : jschar -> bool) (s : jsstring) : jsstring :=
  match s with
  | [] => []
  | c :: s' => if p c then dropWhile p s' else s
  end.

(** [str.trim()] *)
Definition trim (s : jsstring) : jsstring :=
  rev (dropWhile isSpace (rev (dropWhile isSpace s))).

(* ================================================================== *)
(** * Regular expressions *)
(* ================================================================== *)

Module Regex.

(** The fragment the program uses: character classes under greedy
    quantifiers, sequence, ordered alternation and the two anchors. *)
Inductive regex : Type :=
| Chr (cls : jschar -> bool)
| Quant (cls : jschar -> bool) (min : nat) (max : option nat)
| Seq (r1 r2 : regex)
| Alt (r1 r2 : regex)
| Bol
| Eol.

(** A continuation receives the position reached and the input left, and
    answers with the end of the whole match. *)
Definition cont := nat -> jsstring -> option nat.

Definition may_take (max : option nat) : bool :=
  match max with Some 0 => false | _ => true end.

Definition dec_max (max : option nat) : option nat :=
  match max with Some n => Some (pred n) | None => None end.

(** [cls{min,max}], greedy: take one more character first, fall back to
    stopping here when the rest of the pattern fails. *)
Fixpoint quant (cls : jschar -> bool) (min : nat) (max : option nat)
         (pos : nat) (s : jsstring) (k : cont) {struct s} : option nat :=
  let stop := if Nat.eqb min 0 then k pos s else None in
  match s with
  | c :: s' =>
      if cls c && may_take max then
        match quant cls (pred min) (dec_max max) (S pos) s' k with
        | Some e => Some e
        | None => stop
        end
      else stop
  | [] => stop
  end.

Fixpoint rmatch (r : regex) (pos : nat) (s : jsstring) (k : cont) : option nat :=
  match r with
  | Chr cls =>
      match s with
      | c :: s' => if cls c then k (S pos) s' else None
      | [] => None
      end
  | Quant cls min max => quant cls min max pos s k
  | Seq r1 r2 => rmatch r1 pos s (fun pos' s' => rmatch r2 pos' s' k)
  | Alt r1 r2 =>
      match rmatch r1 pos s k with
      | Some e => Some e
      | None => rmatch r2 pos s k
      end
  | Bol => if Nat.eqb pos 0 then k pos s else None
  | Eol => match s with [] => k pos s | _ :: _ => None end
  end.

Definition accept : cont := fun pos _ => Some pos.

(** One attempt at position [pos], [s] being the input from there on:
    the end position of the match. *)
Definition exec_at (r : regex) (pos : nat) (s : jsstring) : option nat :=
  rmatch r pos s accept.

(** First position at or after [pos] where the pattern matches. *)
Fixpoint search (r : regex) (pos : nat) (s : jsstring) : option (nat * nat) :=
  match exec_at r pos s with
  | Some e => Some (pos, e)
  | None =>
      match s with
      | [] => None
      | _ :: s' => search r (S pos) s'
      end
  end.

(** [regex.test(str)] for a regex without the global flag. *)
Definition test (r : regex) (s : jsstring) : bool :=
  match search r 0 s with Some _ => true | None => false end.

(** [str.match(regex)] with the global flag, [null] read as the empty
    array: every match, scanning left to right, the scan resuming where
    the previous match ended (one further after an empty match).
    [skip] counts the characters of the last match still to step over. *)
Fixpoint match_all_from (r : regex) (skip pos : nat) (s : jsstring)
  {struct s} : list jsstring :=
  match skip with
  | S n =>
      match s with
      | [] => []
      | _ :: s' => match_all_from r n (S pos) s'
      end
  | O =>
      match exec_at r pos s with
      | Some e =>
          firstn (e - pos) s ::
            match s with
            | [] => []
            | _ :: s' => match_all_from r (e - pos - 1) (S pos) s'
            end
      | None =>
          match s with
          | [] => []
          | _ :: s' => match_all_from r 0 (S pos) s'
          end
      end
  end.

Definition match_all (r : regex) (s : jsstring) : list jsstring :=
  match_all_from r 0 0 s.

(** [str.replace(regex, '')] for a global regex that is one character
    class: every character of the class is removed. *)
Definition remove_class (cls : jschar -> bool) (s : jsstring) : jsstring :=
  filter (fun c => negb (cls c)) s.

End Regex.

(* ================================================================== *)
(** * PhoneParser *)
(* ================================================================== *)

Module PhoneParser.
Import Regex.

(** [[^\d+]] *)
Definition notDigitOrPlus (c : jschar) : bool := negb (isDigit c || isPlus c).

(** [[\d\s\-\(\)]] *)
Definition phoneBody (c : jschar) : bool :=
  isDigit c || isSpace c || chr_eqb c Chars.hyphen
  || chr_eqb c Chars.lparen || chr_eqb c Chars.rparen.

(** [/^9\d{9}$/] *)
Definition re_9_d9 : regex :=
  Seq Bol (Seq (Chr (chr_eqb Chars.d9)) (Seq (Quant isDigit 9 (Some 9)) Eol)).

(** [/^\d{10}$/] *)
Definition re_d10 : regex :=
  Seq Bol (Seq (Quant isDigit 10 (Some 10)) Eol).

(** [/(?:\+?\d[\d\s\-\(\)]{7,}\d|\d[\d\s\-\(\)]{7,}\d)/g] *)
Definition phoneRegex : regex :=
  Alt (Seq (Quant isPlus 0 (Some 1))
         (Seq (Chr isDigit) (Seq (Quant phoneBody 7 None) (Chr isDigit))))
      (Seq (Chr isDigit) (Seq (Quant phoneBody 7 None) (Chr isDigit))).

Definition normalizePhone (phone : jsstring) : jsstring :=
  let normalized := remove_class notDigitOrPlus phone in
  if startsWith normalized (js "8") then
    js "+7" ++ substring_from 1 normalized
  else if startsWith normalized (js "7") && negb (startsWith normalized (js "+7")) then
    js "+" ++ normalized
  else if test re_9_d9 normalized then
    js "+7" ++ normalized
  else if test re_d10 normalized then
    js "+7" ++ normalized
  else normalized.

Record phone_entry : Type := {
  original : jsstring;
  normalized : jsstring
}.

Definition parsePhoneNumbers (text : jsstring) : list phone_entry :=
  let matches := match_all phoneRegex text in
  map (fun phone => {| original := trim phone;
                       normalized := normalizePhone phone |}) matches.

End PhoneParser.

(* ================================================================== *)
(** * The SQLite tables and the statements the code issues *)
(* ================================================================== *)

Module Sql.

(** A nullable TEXT value. *)
Definition sqltext := option jsstring.

(** A row of [contacts]. Timestamps ([CURRENT_TIMESTAMP], one-second
    resolution) are counted in seconds. *)
Record contact : Type := {
  id : N;
  phone : jsstring;
  normalized_phone : jsstring;
  name : sqltext;
  company : sqltext;
  context : sqltext;
  created_at : N;
  updated_at : N
}.

(** A row of [parsed_messages]. *)
Record parsed_message : Type := {
  pm_id : N;
  message_id : N;
  chat_id : N;
  contact_id : option N;
  original_text : sqltext;
  pm_created_at : N
}.

(** The database: both tables in rowid order, the AUTOINCREMENT counter
    of each, and the connection's last inserted rowid. *)
Record db : Type := {
  contacts : list contact;
  contacts_seq : N;
  parsed_messages : list parsed_message;
  parsed_messages_seq : N;
  lastID : N
}.

Definition empty_db : db :=
  {| contacts := []; contacts_seq := 0; parsed_messages := [];
     parsed_messages_seq := 0; lastID := 0 |}.

Definition set_contacts (rows : list contact) (d : db) : db :=
  {| contacts := rows; contacts_seq := contacts_seq d;
     parsed_messages := parsed_messages d;
     parsed_messages_seq := parsed_messages_seq d; lastID := lastID d |}.

Inductive sqlerror : Type := SQLITE_CONSTRAINT.

Inductive result (A : Type) : Type :=
| Ok (a : A)
| Err (e : sqlerror).
Arguments Ok {A} a.
Arguments Err {A} e.

(** A value bound to [WHERE id = ?]: an integer, or a value that equals
    no rowid (a route parameter that is not numeric text). *)
Inductive idparam : Type :=
| IdInt (n : N)
| IdOther.

Definition id_is (p : idparam) (c : contact) : bool :=
  match p with
  | IdInt n => N.eqb (id c) n
  | IdOther => false
  end.

(** The two UNIQUE columns: does row [c] collide with the new values? *)
Definition collides (ph norm : jsstring) (c : contact) : bool :=
  str_eqb (phone c) ph || str_eqb (normalized_phone c) norm.

(** The row an INSERT of the code writes. Text is kept as UTF-8: a string
    with an unpaired surrogate does not read back as it was written, and
    what is proved of stored text is proved of well-formed strings. *)
Definition new_contact (now : N) (ph norm : jsstring) (nm co cx : sqltext)
           (d : db) : contact :=
  {| id := contacts_seq d + 1; phone := ph; normalized_phone := norm;
     name := nm; company := co; context := cx;
     created_at := now; updated_at := now |}.

Definition append_contact (c : contact) (d : db) : db :=
  {| contacts := contacts d ++ [c]; contacts_seq := id c;
     parsed_messages := parsed_messages d;
     parsed_messages_seq := parsed_messages_seq d; lastID := id c |}.

(** An INSERT that a conflict clause turns into nothing has still drawn
    its rowid: the AUTOINCREMENT counter moves on (the gap SQLite
    documents); rows and last inserted rowid stay. *)
Definition spend_rowid (d : db) : db :=
  {| contacts := contacts d; contacts_seq := contacts_seq d + 1;
     parsed_messages := parsed_messages d;
     parsed_messages_seq := parsed_messages_seq d; lastID := lastID d |}.

(** [INSERT OR IGNORE INTO contacts (phone, normalized_phone, name,
    company, context) VALUES (?, ?, ?, ?, ?)]: a row colliding on a
    UNIQUE column makes the statement insert nothing. *)
Definition insert_or_ignore (now : N) (ph norm : jsstring)
           (nm co cx : sqltext) (d : db) : db :=
  if existsb (collides ph norm) (contacts d) then spend_rowid d
  else append_contact (new_contact now ph norm nm co cx d) d.

(** [INSERT OR REPLACE INTO contacts ...]: the rows colliding on a UNIQUE
    column are deleted, then the new row is inserted. *)
Definition insert_or_replace (now : N) (ph norm : jsstring)
           (nm co cx : sqltext) (d : db) : db :=
  let kept := filter (fun c => negb (collides ph norm c)) (contacts d) in
  let d' := set_contacts kept d in
  append_contact (new_contact now ph norm nm co cx d') d'.

(** [SELECT * FROM contacts WHERE normalized_phone = ?], first row. *)
Definition select_by_normalized (norm : jsstring) (d : db) : option contact :=
  find (fun c => str_eqb (normalized_phone c) norm) (contacts d).

(** ASCII case folding of LIKE: only [A]..[Z] are folded. *)
Definition lower (c : jschar) : jschar :=
  if (65 <=? c)%N && (c <=? 90)%N then (c + 32)%N else c.

(** The text LIKE reads of an operand: up to its first NUL character. *)
Fixpoint c_string (s : jsstring) : jsstring :=
  match s with
  | [] => []
  | c :: s' => if chr_eqb c 0%N then [] else c :: c_string s'
  end.

Definition isHighSurrogate (c : jschar) : bool := (55296 <=? c)%N && (c <=? 56319)%N.
Definition isLowSurrogate (c : jschar) : bool := (56320 <=? c)%N && (c <=? 57343)%N.

(** One character off the front; a surrogate pair is one character. *)
Definition skip_char (s : jsstring) : option jsstring :=
  match s with
  | [] => None
  | c :: s' =>
      match s' with
      | l :: s'' => if isHighSurrogate c && isLowSurrogate l then Some s'' else Some s'
      | [] => Some s'
      end
  end.

(** The comparison of LIKE, SQLite's default: [%] any run of characters,
    [_] any one character, other characters compared after ASCII case
    folding; no ESCAPE character. *)
Fixpoint like_from (pat str : jsstring) {struct pat} : bool :=
  match pat with
  | [] => match str with [] => true | _ :: _ => false end
  | p :: pat' =>
      if chr_eqb p Chars.percent then
        (fix any (str : jsstring) : bool :=
           like_from pat' str
           || match str with
              | [] => false
              | _ :: str' => any str'
              end) str
      else if chr_eqb p Chars.underscore then
        match skip_char str with
        | Some str' => like_from pat' str'
        | None => false
        end
      else
        match str with
        | [] => false
        | c :: str' => chr_eqb (lower c) (lower p) && like_from pat' str'
        end
  end.

(** [str LIKE pat]: pattern and text both end at their first NUL. The
    statement fails on a pattern of more than [max_like_pattern] bytes,
    which is not modelled. *)
Definition like (pat str : jsstring) : bool :=
  like_from (c_string pat) (c_string str).




(** [column LIKE ?] on a nullable column: NULL never satisfies WHERE. *)
Definition like_col (pat : jsstring) (v : sqltext) : bool :=
  match v with
  | Some s => like pat s
  | None => false
  end.

(** [ORDER BY updated_at DESC]; rows with equal timestamps keep their
    rowid order (the engine leaves their order unspecified). *)
Fixpoint insert_desc (c : contact) (rows : list contact) : list contact :=
  match rows with
  | [] => [c]
  | x :: rows' =>
      if (updated_at c <? updated_at x)%N then x :: insert_desc c rows'
      else c :: rows
  end.

Definition order_by_updated_desc (rows : list contact) : list contact :=
  fold_right insert_desc [] rows.

(** [SELECT * FROM contacts WHERE normalized_phone LIKE ? OR phone LIKE ?
    OR name LIKE ? OR company LIKE ? OR context LIKE ?
    ORDER BY updated_at DESC], the five parameters being one pattern. *)
Definition row_like (pat : jsstring) (c : contact) : bool :=
  like pat (normalized_phone c) || like pat (phone c)
  || like_col pat (name c) || like_col pat (company c)
  || like_col pat (context c).

Definition select_like (pat : jsstring) (d : db) : list contact :=
  order_by_updated_desc (filter (row_like pat) (contacts d)).

(** The columns an UPDATE of the code can name. *)
Inductive column : Type :=
| Cphone | Cnormalized_phone | Cname | Ccompany | Ccontext.

(** One [column = ?] of a SET clause; [None] on a NOT NULL violation. *)
Definition assign (c : contact) (kv : column * sqltext) : option contact :=
  match kv with
  | (Cphone, Some v) =>
      Some {| id := id c; phone := v; normalized_phone := normalized_phone c;
              name := name c; company := company c; context := context c;
              created_at := created_at c; updated_at := updated_at c |}
  | (Cnormalized_phone, Some v) =>
      Some {| id := id c; phone := phone c; normalized_phone := v;
              name := name c; company := company c; context := context c;
              created_at := created_at c; updated_at := updated_at c |}
  | (Cphone, None) | (Cnormalized_phone, None) => None
  | (Cname, v) =>
      Some {| id := id c; phone := phone c; normalized_phone := normalized_phone c;
              name := v; company := company c; context := context c;
              created_at := created_at c; updated_at := updated_at c |}
  | (Ccompany, v) =>
      Some {| id := id c; phone := phone c; normalized_phone := normalized_phone c;
              name := name c; company := v; context := context c;
              created_at := created_at c; updated_at := updated_at c |}
  | (Ccontext, v) =>
      Some {| id := id c; phone := phone c; normalized_phone := normalized_phone c;
              name := name c; company := company c; context := v;
              created_at := created_at c; updated_at := updated_at c |}
  end.

Fixpoint assign_all (c : contact) (sets : list (column * sqltext)) : option contact :=
  match sets with
  | [] => Some c
  | kv :: sets' =>
      match assign c kv with
      | Some c' => assign_all c' sets'
      | None => None
      end
  end.

Definition touch (now : N) (c : contact) : contact :=
  {| id := id c; phone := phone c; normalized_phone := normalized_phone c;
     name := name c; company := company c; context := context c;
     created_at := created_at c; updated_at := now |}.

Definition names_column (col : column) (kv : column * sqltext) : bool :=
  match col, fst kv with
  | Cphone, Cphone | Cnormalized_phone, Cnormalized_phone
  | Cname, Cname | Ccompany, Ccompany | Ccontext, Ccontext => true
  | _, _ => false
  end.

(** The UNIQUE indexes are checked for the columns the SET clause
    writes: does another row already hold the new value? *)
Definition breaks_unique (sets : list (column * sqltext)) (c' : contact)
           (all : list contact) : bool :=
  (existsb (names_column Cphone) sets
   && existsb (fun o => negb (N.eqb (id o) (id c'))
                        && str_eqb (phone o) (phone c')) all)
  || (existsb (names_column Cnormalized_phone) sets
      && existsb (fun o => negb (N.eqb (id o) (id c'))
                           && str_eqb (normalized_phone o) (normalized_phone c')) all).

(** [UPDATE contacts SET <sets>, updated_at = CURRENT_TIMESTAMP
    WHERE id = ?] over the rows: the new rows and the number of rows
    the WHERE clause selected. A new row that breaks NOT NULL or UNIQUE
    aborts the statement. *)
Fixpoint update_rows (now : N) (p : idparam) (sets : list (column * sqltext))
         (all rows : list contact) : result (list contact * nat) :=
  match rows with
  | [] => Ok ([], 0)
  | c :: rows' =>
      match update_rows now p sets all rows' with
      | Err e => Err e
      | Ok (rest, n) =>
          if id_is p c then
            match assign_all c sets with
            | None => Err SQLITE_CONSTRAINT
            | Some c' =>
                if breaks_unique sets c' all then Err SQLITE_CONSTRAINT
                else Ok (touch now c' :: rest, S n)
            end
          else Ok (c :: rest, n)
      end
  end.

Definition update_where_id (now : N) (p : idparam)
           (sets : list (column * sqltext)) (d : db) : result (db * nat) :=
  match update_rows now p sets (contacts d) (contacts d) with
  | Ok (rows, n) => Ok (set_contacts rows d, n)
  | Err e => Err e
  end.

(** [INSERT INTO parsed_messages (message_id, chat_id, contact_id,
    original_text) VALUES (?, ?, ?, ?)] *)
Definition insert_parsed_message (now : N) (mid cid : N) (contact : option N)
           (text : sqltext) (d : db) : db :=
  let rowid := (parsed_messages_seq d + 1)%N in
  {| contacts := contacts d; contacts_seq := contacts_seq d;
     parsed_messages := parsed_messages d ++
       [ {| pm_id := rowid; message_id := mid; chat_id := cid;
            contact_id := contact; original_text := text;
            pm_created_at := now |} ];
     parsed_messages_seq := rowid; lastID := rowid |}.

End Sql.

(* ================================================================== *)
(** * The store functions every copy of the code shares *)
(* ================================================================== *)

Module Store.
Import Sql.

(** [findContactByPhone(phone)] *)
Definition findContactByPhone (phone : jsstring) (d : db) : option contact :=
  select_by_normalized phone d.

(** [searchContacts(query)]: the pattern is [`%${query}%`]. *)
Definition searchContacts (query : jsstring) (d : db) : list contact :=
  let searchQuery := js "%" ++ query ++ js "%" in
  select_like searchQuery d.

(** [updateContact(id, updates)]: [updates] is the object's entries in
    insertion order; the result is [this.changes]. *)
Definition updateContact (now : N) (id : idparam)
           (updates : list (column * sqltext)) (d : db) : result (db * nat) :=
  let fields := updates in
  update_where_id now id fields d.

End Store.

(** ** The [Database] class (INSERT OR IGNORE) *)
Module Database.
Import Sql.

(** [saveContact(phone, normalizedPhone, name, company, context)],
    resolving to [this.lastID]. *)
Definition saveContact (now : N) (phone normalizedPhone : jsstring)
           (name company context : sqltext) (d : db) : db * N :=
  let d' := insert_or_ignore now phone normalizedPhone name company context d in
  (d', lastID d').

Definition findContactByPhone := Store.findContactByPhone.
Definition searchContacts := Store.searchContacts.
Definition updateContact := Store.updateContact.

(** [logParsedMessage(messageId, chatId, contactId, originalText)] *)
Definition logParsedMessage (now : N) (messageId chatId : N)
           (contactId : option N) (originalText : sqltext) (d : db) : db * N :=
  let d' := insert_parsed_message now messageId chatId contactId originalText d in
  (d', lastID d').

End Database.

(* ================================================================== *)
(** * The chat message handler and the PUT endpoint *)
(* ================================================================== *)

Module Bot.
Import Sql PhoneParser.

(** [ctx.message]: the fields the handler reads. *)
Record message : Type := {
  msg_message_id : N;
  msg_chat_id : N;
  msg_text : option jsstring
}.

(** What the handler sends back. *)
Inductive outcome : Type :=
| Silent                        (* returned without replying *)
| Reply (text : jsstring)       (* the joined blocks, as a reply *)
| Apology (text : jsstring)     (* the catch branch replied *)
| LoggedOnly.                   (* the catch branch only logged *)

(** The literals of the reply, as UTF-16 code units. *)
Definition found_prefix : jsstring :=    (* telephone sign, " Najden telefon:\n`" *)
  [55357; 56542; 32; 1053; 1072; 1081; 1076; 1077; 1085; 32; 1090; 1077;
   1083; 1077; 1092; 1086; 1085; 58; 10; 96]%N.
Definition name_prefix : jsstring := [10; 55357; 56420; 32; 96]%N.
Definition company_prefix : jsstring := [10; 55356; 57314; 32; 96]%N.
Definition backtick : jsstring := [96]%N.
Definition blank_line : jsstring := [10; 10]%N.    (* '\n\n' *)
Definition apology_text : jsstring :=
  [1055; 1088; 1086; 1080; 1079; 1086; 1096; 1083; 1072; 32; 1086; 1096;
   1080; 1073; 1082; 1072; 32; 1087; 1088; 1080; 32; 1086; 1073; 1088;
   1072; 1073; 1086; 1090; 1082; 1077; 32; 1089; 1086; 1086; 1073; 1097;
   1077; 1085; 1080; 1103]%N.

(** Truthiness of a column value: neither NULL nor the empty string. *)
Definition truthy (v : sqltext) : option jsstring :=
  match v with
  | Some (c :: s) => Some (c :: s)
  | _ => None
  end.

(** [responses.join('\n\n')] *)
Fixpoint join (sep : jsstring) (parts : list jsstring) : jsstring :=
  match parts with
  | [] => []
  | [p] => p
  | p :: rest => p ++ sep ++ join sep rest
  end.

Section Handler.
(** The copy's [database.saveContact]. *)
Variable saveContact :
  N -> jsstring -> jsstring -> sqltext -> sqltext -> sqltext -> db -> db * N.
(** Whether the copy writes [contact && contact.name] (it does not throw
    on a missing row) or [contact.name]. *)
Variable guarded : bool.
(** What the copy's catch branch does. *)
Variable on_error : outcome.

(** The block of one phone; [None] is the TypeError of reading a
    property of [undefined]. *)
Definition block (ph : phone_entry) (contact : option contact) : option jsstring :=
  let response := found_prefix ++ normalized ph ++ backtick in
  match contact with
  | Some c =>
      let response :=
        match truthy (name c) with
        | Some n => response ++ name_prefix ++ n ++ backtick
        | None => response
        end in
      let response :=
        match truthy (company c) with
        | Some n => response ++ company_prefix ++ n ++ backtick
        | None => response
        end in
      Some response
  | None => if guarded then Some response else None
  end.

(** The body of [for (const phone of phones)]. *)
Fixpoint each_phone (now : N) (text : jsstring) (phones : list phone_entry)
         (responses : list jsstring) (d : db) : db * option (list jsstring) :=
  match phones with
  | [] => (d, Some responses)
  | ph :: rest =>
      let '(d1, contact) :=
        match Store.findContactByPhone (normalized ph) d with
        | Some c => (d, Some c)
        | None =>
            let '(d', contactId) :=
              saveContact now (original ph) (normalized ph) None None
                          (Some (substring_to 200 text)) d in
            (d', Store.findContactByPhone (normalized ph) d')
        end in
      match block ph contact with
      | Some response => each_phone now text rest (responses ++ [response]) d1
      | None => (d1, None)
      end
  end.

(** [bot.on('message', ...)]: the store afterwards and the reply holding
    the blocks; the follow-up message carrying the web interface button,
    which depends on the environment, is in [FollowUp]. *)
Definition on_message (now : N) (m : message) (d : db) : db * outcome :=
  let text := match msg_text m with Some t => t | None => [] end in
  match trim text with
  | [] => (d, Silent)
  | _ :: _ =>
      let phones := parsePhoneNumbers text in
      match phones with
      | [] => (d, Silent)
      | _ :: _ =>
          match each_phone now text phones [] d with
          | (d', Some responses) =>
              match responses with
              | [] => (d', Silent)
              | _ :: _ => (d', Reply (join blank_line responses))
              end
          | (d', None) => (d', on_error)
          end
      end
  end.
End Handler.

End Bot.

Module Http.
Import Sql.

(** The JSON body of [PUT /api/contacts/:id]: a field is absent
    ([undefined]) or holds null or a string. *)
Record put_body : Type := {
  body_name : option sqltext;
  body_company : option sqltext;
  body_context : option sqltext
}.

Record response : Type := {
  status : nat;
  success : bool;
  message : option jsstring;
  error : option jsstring
}.

(** [if (name !== undefined) updates.name = name; ...] *)
Definition build_updates (b : put_body) : list (column * sqltext) :=
  let updates := [] in
  let updates := match body_name b with
                 | Some v => updates ++ [(Cname, v)] | None => updates end in
  let updates := match body_company b with
                 | Some v => updates ++ [(Ccompany, v)] | None => updates end in
  let updates := match body_context b with
                 | Some v => updates ++ [(Ccontext, v)] | None => updates end in
  updates.

(** The body [{name: x}]. *)
Definition body_with_name (x : sqltext) : put_body :=
  {| body_name := Some x; body_company := None; body_context := None |}.

Definition server_error : response :=
  {| status := 500; success := false; message := None;
     error := Some (js "Server error") |}.

End Http.

(** ** [server.js], first copy (INSERT OR REPLACE, PUT checks the count) *)
Module ServerA.
Import Sql Http.

Definition saveContact (now : N) (phone normalizedPhone : jsstring)
           (name company context : sqltext) (d : db) : db * N :=
  let d' := insert_or_replace now phone normalizedPhone name company context d in
  (d', lastID d').

Definition on_message : N -> Bot.message -> db -> db * Bot.outcome :=
  Bot.on_message saveContact true (Bot.Apology Bot.apology_text).

(** [app.put('/api/contacts/:id', ...)] *)
Definition put_contact (now : N) (id : idparam) (body : put_body) (d : db)
  : db * response :=
  let updates := build_updates body in
  match Store.updateContact now id updates d with
  | Ok (d', changes) =>
      if 0 <? changes then
        (d', {| status := 200; success := true;
                message := Some (js "Contact updated successfully");
                error := None |})
      else
        (d', {| status := 404; success := false; message := None;
                error := Some (js "Contact not found or no changes made") |})
  | Err _ => (d, server_error)
  end.

End ServerA.

(** ** [server.js], second copy (INSERT OR IGNORE, PUT ignores the count) *)
Module ServerB.
Import Sql Http.

Definition saveContact (now : N) (phone normalizedPhone : jsstring)
           (name company context : sqltext) (d : db) : db * N :=
  let d' := insert_or_ignore now phone normalizedPhone name company context d in
  (d', lastID d').

Definition on_message : N -> Bot.message -> db -> db * Bot.outcome :=
  Bot.on_message saveContact false Bot.LoggedOnly.

(** [app.put('/api/contacts/:id', ...)] *)
Definition put_contact (now : N) (id : idparam) (body : put_body) (d : db)
  : db * response :=
  let updates := build_updates body in
  match Store.updateContact now id updates d with
  | Ok (d', _) =>
      (d', {| status := 200; success := true; message := None; error := None |})
  | Err _ => (d, server_error)
  end.

End ServerB.

(* ================================================================== *)
(** * Sample data *)
(* ================================================================== *)

Module Samples.
Import Sql.

Definition raw_8 : jsstring := js "89991234567".
Definition raw_plus7 : jsstring := js "+79991234567".
Definition canonical : jsstring := js "+79991234567".
Definition ann : sqltext := Some (js "Ann").
Definition bob : sqltext := Some (js "Bob").

(** One contact, as the handler stores it at time 1. *)
Definition stored_row : contact :=
  {| id := 1; phone := js "8-999-123-45-67";
     normalized_phone := canonical; name := None; company := None;
     context := Some (js "call me at 8-999-123-45-67 please");
     created_at := 1; updated_at := 1 |}.

Definition one_contact : db :=
  {| contacts := [stored_row];
     contacts_seq := 1; parsed_messages := []; parsed_messages_seq := 0;
     lastID := 1 |}.

(** Two contacts, the second one touched last. *)
Definition two_contacts : db :=
  {| contacts :=
       [ {| id := 1; phone := js "8-999-123-45-67";
            normalized_phone := canonical; name := Some (js "ACME sales");
            company := None; context := None;
            created_at := 1; updated_at := 1 |};
         {| id := 2; phone := js "+1 202 555 0100";
            normalized_phone := js "+12025550100"; name := None;
            company := Some (js "Acme Corp"); context := None;
            created_at := 2; updated_at := 5 |} ];
     contacts_seq := 2; parsed_messages := []; parsed_messages_seq := 0;
     lastID := 2 |}.



Definition sample_message : Bot.message :=
  {| Bot.msg_message_id := 10; Bot.msg_chat_id := 20;
     Bot.msg_text := Some (js "call me at 8-999-123-45-67 please") |}.

End Samples.

(* ================================================================== *)
(** * The specification's own words, for comparison with the code *)
(* ================================================================== *)

Module Spec.
Import Sql PhoneParser.

Definition keep (c : jschar) : bool := isDigit c || isPlus c.

(** "exactly 10 digits" *)
Definition ten_digits (s : jsstring) : bool :=
  Nat.eqb (length s) 10 && forallb isDigit s.

Definition starts (c : jschar) (s : jsstring) : bool :=
  match s with
  | x :: _ => chr_eqb x c
  | [] => false
  end.

(** Steps 2 to 6 of the normalizer, on the stripped string. *)
Definition rules (s : jsstring) : jsstring :=
  if starts Chars.d8 s then Chars.plus :: Chars.d7 :: tl s
  else if starts Chars.d7 s && negb (startsWith s [Chars.plus; Chars.d7]) then Chars.plus :: s
  else if ten_digits s && starts Chars.d9 s then Chars.plus :: Chars.d7 :: s
  else if ten_digits s then Chars.plus :: Chars.d7 :: s
  else s.

(** Step 1 as written: "strip every character except digits and a
    leading +". A [+] is leading when no kept character precedes it. *)
Definition strip_leading (raw : jsstring) : jsstring :=
  match filter keep raw with
  | c :: rest => if isPlus c then c :: filter isDigit rest
                 else filter isDigit (c :: rest)
  | [] => []
  end.

Definition normalize (raw : jsstring) : jsstring := rules (strip_leading raw).

(** Step 1 as the code has it: every [+] is kept, wherever it stands. *)
Definition strip_all (raw : jsstring) : jsstring := filter keep raw.

Definition normalize_amended (raw : jsstring) : jsstring := rules (strip_all raw).

(** The shape of a match: an optional [+], a digit, an interior of at
    least [n] characters of the class, a digit. *)
Definition phone_shaped (n : nat) (m : jsstring) : Prop :=
  exists sign d1 interior d2,
    m = sign ++ [d1] ++ interior ++ [d2]
    /\ (sign = [] \/ sign = [Chars.plus])
    /\ isDigit d1 = true /\ isDigit d2 = true
    /\ forallb phoneBody interior = true
    /\ n <= length interior.

(** The matches of a pattern in a text, declaratively: [ms] are the
    leftmost non-overlapping matches of [r] in [s], in order, [s]
    starting at position [pos] of the whole text. *)
Inductive scans (r : Regex.regex) : nat -> jsstring -> list jsstring -> Prop :=
| scans_done pos s :
    (forall i, i <= length s -> Regex.exec_at r (pos + i) (skipn i s) = None) ->
    scans r pos s []
| scans_match pos pre m rest ms :
    (forall i, i < length pre ->
               Regex.exec_at r (pos + i) (skipn i (pre ++ m ++ rest)) = None) ->
    Regex.exec_at r (pos + length pre) (m ++ rest)
      = Some (pos + length pre + length m) ->
    m <> [] ->
    scans r (pos + length pre + length m) rest ms ->
    scans r pos (pre ++ m ++ rest) (m :: ms).





(** Well-formed UTF-16: every surrogate is half of a pair. Such a string
    is bound to a statement and read back unchanged. *)
Fixpoint well_formed (s : jsstring) : bool :=
  match s with
  | [] => true
  | c :: s' =>
      if isHighSurrogate c then
        match s' with
        | l :: s'' => isLowSurrogate l && well_formed s''
        | [] => false
        end
      else negb (isLowSurrogate c) && well_formed s'
  end.

Definition well_formed_col (v : sqltext) : bool :=
  match v with
  | Some s => well_formed s
  | None => true
  end.

Definition nul_free (s : jsstring) : bool :=
  forallb (fun c => negb (chr_eqb c 0%N)) s.

(** A row as the store can hold it: its text reads back as written. *)
Definition well_formed_row (c : contact) : bool :=
  well_formed (phone c) && well_formed (normalized_phone c)
  && well_formed_col (name c) && well_formed_col (company c)
  && well_formed_col (context c).


(** "a contacts row with normalized_phone = n" *)
Definition has_key (n : jsstring) (c : contact) : bool :=
  str_eqb (normalized_phone c) n.

(** "the fields explicitly supplied (name/company/context)" *)
Definition only_mutable (sets : list (column * sqltext)) : bool :=
  forallb (fun kv => match fst kv with
                     | Cname | Ccompany | Ccontext => true
                     | Cphone | Cnormalized_phone => false
                     end) sets.

(** The columns an update of name, company or context leaves alone. *)
Definition fixed_part (c : contact) : N * jsstring * jsstring * N :=
  (id c, phone c, normalized_phone c, created_at c).

(** "either a decimal digit or +", and so not whitespace, a hyphen or a
    parenthesis *)
Definition digit_or_plus (c : jschar) : Prop :=
  (isDigit c = true \/ c = Chars.plus)
  /\ isSpace c = false
  /\ c <> Chars.hyphen /\ c <> Chars.lparen /\ c <> Chars.rparen.

Definition wildcard (c : jschar) : bool :=
  chr_eqb c Chars.percent || chr_eqb c Chars.underscore.

(** "ordered by updatedAt descending" *)
Definition newest_first (rows : list contact) : Prop :=
  StronglySorted (fun a b => (updated_at b <= updated_at a)%N) rows.

End Spec.

(* ================================================================== *)
(** * The remaining store functions, the commands and the GET endpoints *)
(* ================================================================== *)

From Stdlib Require Import ZArith.

Module StoreQueries.
Import Sql.

(** [LIMIT ?] for an integer bound: a negative bound is no bound. The
    statement fails on a bound that is not a 64-bit integer, which is not
    modelled: what is proved of a listing is proved within that range. *)
Definition limit_rows (limit : Z) (rows : list contact) : list contact :=
  if (limit <? 0)%Z then rows else firstn (Z.to_nat limit) rows.


(** [getAllContacts(limit)]:
    [SELECT * FROM contacts ORDER BY updated_at DESC LIMIT ?] *)
Definition getAllContacts (limit : Z) (d : db) : list contact :=
  limit_rows limit (order_by_updated_desc (contacts d)).

(** [getContactById(id)]: [SELECT * FROM contacts WHERE id = ?], first row. *)
Definition getContactById (id : idparam) (d : db) : option contact :=
  find (id_is id) (contacts d).

(** [x IS NOT NULL AND x != ''] *)
Definition filled (v : sqltext) : bool :=
  match v with
  | Some (_ :: _) => true
  | _ => false
  end.

Record stats : Type := {
  total : nat;
  with_names : nat;
  with_companies : nat
}.

(** [getStats()]: [COUNT( * )] and the two [COUNT(CASE WHEN ... THEN 1 END)]. *)
Definition getStats (d : db) : stats :=
  {| total := length (contacts d);
     with_names := length (filter (fun c => filled (name c)) (contacts d));
     with_companies := length (filter (fun c => filled (company c)) (contacts d)) |}.

End StoreQueries.

Module Api.
Import Sql.

(** The JSON answer of a GET endpoint carrying one value. *)
Record get_response (A : Type) : Type := {
  get_status : nat;
  get_success : bool;
  get_data : option A;
  get_error : option jsstring
}.


(** [app.get('/api/stats', ...)] of the first copy. *)
Definition get_stats (d : db) : get_response StoreQueries.stats :=
  let stats := StoreQueries.getStats d in
  {| get_status := 200; get_success := true;
     get_data := Some stats; get_error := None |}.

End Api.

Module Commands.
Import Sql PhoneParser.

(** [str.split(' ')] for a one-character separator. *)
Fixpoint split_on (sep : jschar) (s : jsstring) : list jsstring :=
  match s with
  | [] => [[]]
  | c :: s' =>
      if chr_eqb c sep then [] :: split_on sep s'
      else match split_on sep s' with
           | w :: ws => (c :: w) :: ws
           | [] => [[c]]
           end
  end.

(** [x || null] on an array element: [undefined] and [''] give null. *)
Definition or_null (x : option jsstring) : sqltext :=
  match x with
  | Some (c :: s) => Some (c :: s)
  | _ => None
  end.

(** The literals of the replies, as UTF-16 code units. *)
Definition add_usage : jsstring :=
  [1048; 1089; 1087; 1086; 1083; 1100; 1079; 1086; 1074; 1072; 1085; 1080;
   1077; 58; 32; 47; 97; 100; 100; 32; 60; 1085; 1086; 1084; 1077; 1088;
   32; 1090; 1077; 1083; 1077; 1092; 1086; 1085; 1072; 62; 32; 91; 1080;
   1084; 1103; 93; 32; 91; 1082; 1086; 1084; 1087; 1072; 1085; 1080; 1103;
   93]%N.
Definition saved_prefix : jsstring :=
  [9989; 32; 1050; 1086; 1085; 1090; 1072; 1082; 1090; 32; 1089; 1086;
   1093; 1088; 1072; 1085; 1077; 1085; 58; 10; 96]%N.

(** [ctx.message.text.split(' ').slice(1)] *)
Definition command_args (text : jsstring) : list jsstring :=
  skipn 1 (split_on Chars.space text).

Section Add.
(** The copy's [database.saveContact]. *)
Variable saveContact :
  N -> jsstring -> jsstring -> sqltext -> sqltext -> sqltext -> db -> db * N.

(** The body of [bot.command('add', ...)], the same in both copies but
    for [saveContact]; the store statement it issues cannot fail here, so
    the catch branch is left out. [bot.on('message', ...)] is registered
    before it and does not pass the update on, so the running bot handles
    a message that carries the command in the message handler and does not
    reach this body. *)
Definition add (now : N) (text : jsstring) (d : db) : db * jsstring :=
  let args := command_args text in
  match args with
  | [] => (d, add_usage)
  | arg0 :: _ =>
      let phone := normalizePhone arg0 in
      let name := or_null (nth_error args 1) in
      let company := or_null (nth_error args 2) in
      let '(d', _) := saveContact now arg0 phone name company None d in
      (d', saved_prefix ++ phone ++ Bot.backtick
           ++ match name with
              | Some n => Bot.name_prefix ++ n ++ Bot.backtick
              | None => []
              end
           ++ match company with
              | Some n => Bot.company_prefix ++ n ++ Bot.backtick
              | None => []
              end)
  end.
End Add.

End Commands.

(** ** The commands of each copy *)
Module CommandsA.
Definition add := Commands.add ServerA.saveContact.
End CommandsA.

Module CommandsB.
Definition add := Commands.add ServerB.saveContact.
End CommandsB.

(** ** What the message handler sends *)
Module FollowUp.
Import Sql.













End FollowUp.

(* ================================================================== *)
(** * Invariants of the store *)
(* ================================================================== *)

Module Inv.
Import Sql PhoneParser.

(** Every stored key is the normal form of the stored original. *)
Definition consistent (d : db) : Prop :=
  Forall (fun c => normalized_phone c = normalizePhone (phone c)) (contacts d).

(** The table constraints: PRIMARY KEY, the two UNIQUE columns, and no
    rowid beyond the AUTOINCREMENT counter. *)
Definition constrained (d : db) : Prop :=
  NoDup (map id (contacts d))
  /\ NoDup (map phone (contacts d))
  /\ NoDup (map normalized_phone (contacts d))
  /\ Forall (fun c => (id c <= contacts_seq d)%N) (contacts d).

(** The entries the extractor produces: [normalized] is the normal form of
    [original]. *)
Definition entry_ok (ph : phone_entry) : Prop :=
  normalized ph = normalizePhone (original ph).

(** The row the message handler writes for a phone it has not seen. *)
Definition sighting (now : N) (text : jsstring) (ph : phone_entry) (c : contact) : Prop :=
  phone c = original ph /\ normalized_phone c = normalized ph
  /\ name c = None /\ company c = None
  /\ context c = Some (substring_to 200 text)
  /\ created_at c = now /\ updated_at c = now.

(** The block of the reply for a phone, given the row found for it. *)
Definition block_text (ph : phone_entry) (contact : option contact) : jsstring :=
  match Bot.block true ph contact with
  | Some response => response
  | None => []
  end.

(** What a PUT body makes of a row. *)
Definition apply_body (now : N) (b : Http.put_body) (r : contact) : contact :=
  {| id := id r; phone := phone r; normalized_phone := normalized_phone r;
     name := match Http.body_name b with Some v => v | None => name r end;
     company := match Http.body_company b with Some v => v | None => company r end;
     context := match Http.body_context b with Some v => v | None => context r end;
     created_at := created_at r; updated_at := now |}.

(** The matches laid out in the text: each one after the previous, and
    none directly followed by a digit. *)
Inductive tiles : jsstring -> list jsstring -> Prop :=
| tiles_nil s : tiles s []
| tiles_cons pre m rest ms :
    hd_error (map isDigit rest) <> Some true ->
    tiles rest ms ->
    tiles (pre ++ m ++ rest) (m :: ms).

End Inv.

(* ================================================================== *)
(** * Properties of the matcher *)
(* ================================================================== *)

Section MatcherFacts.
Import Regex.
Variable cls : jschar -> bool.

Lemma quant_exact (n : nat) : forall s pos k,
  quant cls n (Some n) pos s k =
    if (n <=? length s) && forallb cls (firstn n s)
    then k (pos + n) (skipn n s) else None.
Proof.
  induction n as [|n IH]; intros s pos k.
  - rewrite Nat.add_0_r. destruct s as [|c s]; simpl.
    + reflexivity.
    + rewrite andb_false_r. reflexivity.
  - destruct s as [|c s]; simpl; [reflexivity|].
    rewrite andb_true_r. destruct (cls c); simpl;
      [|rewrite andb_false_r; reflexivity].
    rewrite IH. replace (S pos + n) with (pos + S n) by lia.
    change (S n <=? S (length s)) with (n <=? length s).
    destruct ((n <=? length s) && forallb cls (firstn n s)); [|reflexivity].
    destruct (k (pos + S n) (skipn n s)); reflexivity.
Qed.

(** Whatever a quantifier matched: a number of characters within its
    bounds, all in the class, after which the continuation succeeded. *)
Lemma quant_sound : forall s min max pos k e,
  quant cls min max pos s k = Some e ->
  exists n, min <= n /\ (forall b, max = Some b -> n <= b)
            /\ n <= length s
            /\ forallb cls (firstn n s) = true
            /\ k (pos + n) (skipn n s) = Some e.
Proof.
  assert (Hstop : forall (s : jsstring) (min : nat) (max : option nat)
                         (pos : nat) (k : cont) (e : nat),
    (if Nat.eqb min 0 then k pos s else None) = Some e ->
    exists n, min <= n /\ (forall b, max = Some b -> n <= b)
              /\ n <= length s
              /\ forallb cls (firstn n s) = true
              /\ k (pos + n) (skipn n s) = Some e).
  { intros s min max pos k e H. destruct (Nat.eqb_spec min 0); [|discriminate].
    exists 0. rewrite Nat.add_0_r. simpl. repeat split; auto; lia. }
  induction s as [|c s IH]; intros min max pos k e H.
  - simpl in H. apply Hstop; assumption.
  - simpl in H.
    destruct (cls c && may_take max) eqn:Hc; [|apply Hstop; assumption].
    destruct (quant cls (pred min) (dec_max max) (S pos) s k) eqn:Hq;
      [|apply Hstop; assumption].
    inversion H; subst; clear H.
    apply andb_prop in Hc. destruct Hc as [Hc Hm].
    destruct (IH _ _ _ _ _ Hq) as (n & Hmin & Hmax & Hlen & Hall & Hk).
    exists (S n). simpl. rewrite Hc, Hall.
    replace (pos + S n) with (S pos + n) by lia.
    repeat split; auto; try lia.
    intros b Hb. subst max. simpl in Hm. destruct b; [discriminate|].
    specialize (Hmax b eq_refl). lia.
Qed.

End MatcherFacts.

(* ================================================================== *)
(** * Character classes *)
(* ================================================================== *)

Import PhoneParser.

Ltac class_facts :=
  unfold Spec.keep, phoneBody, isDigit, isPlus, isSpace, Spec.wildcard,
    chr_eqb, Chars.plus, Chars.hyphen, Chars.lparen, Chars.rparen,
    Chars.space, Chars.percent, Chars.underscore, Chars.d7, Chars.d8,
    Chars.d9 in *;
  repeat match goal with
         | |- _ = false => apply not_true_is_false; intro
         | H : _ = false |- _ => apply not_true_iff_false in H
         end;
  rewrite ?orb_true_iff, ?andb_true_iff, ?N.leb_le, ?N.eqb_eq in *;
  try lia.

Lemma digit_not_space (c : jschar) : isDigit c = true -> isSpace c = false.
Proof. intros H. class_facts. Qed.

Lemma plus_not_space (c : jschar) : isPlus c = true -> isSpace c = false.
Proof. intros H. class_facts. Qed.

Lemma space_not_kept (c : jschar) : isSpace c = true -> Spec.keep c = false.
Proof. intros H. class_facts. Qed.

Lemma kept_not_punct (c : jschar) :
  Spec.keep c = true ->
  isSpace c = false /\ c <> Chars.hyphen /\ c <> Chars.lparen /\ c <> Chars.rparen.
Proof.
  intros H. split; class_facts.
Qed.

(* ================================================================== *)
(** * normalizePhone *)
(* ================================================================== *)

Section NormalizeFacts.
Import Regex Spec.

Lemma remove_notDigitOrPlus (s : jsstring) :
  remove_class notDigitOrPlus s = filter keep s.
Proof.
  unfold remove_class. apply filter_ext. intros c.
  unfold notDigitOrPlus, keep. apply negb_involutive.
Qed.

Lemma startsWith_one (c : jschar) (s : jsstring) :
  startsWith s [c] = starts c s.
Proof. destruct s; simpl; [reflexivity|apply andb_true_r]. Qed.

Lemma search_bol (r : regex) : forall s pos,
  0 < pos -> search (Seq Bol r) pos s = None.
Proof.
  induction s as [|c s IH]; intros pos Hpos; simpl; unfold exec_at; simpl;
    destruct (Nat.eqb_spec pos 0); try lia; auto.
Qed.

Lemma test_bol (r : regex) (s : jsstring) :
  test (Seq Bol r) s =
    match rmatch r 0 s accept with Some _ => true | None => false end.
Proof.
  unfold test. destruct s as [|c s]; simpl; unfold exec_at; simpl.
  - destruct (rmatch r 0 [] accept); reflexivity.
  - destruct (rmatch r 0 (c :: s) accept); [reflexivity|].
    rewrite search_bol by lia. reflexivity.
Qed.

(** [\d{n}$] from the current position: exactly [n] digits are left. *)
Lemma digits_to_end (n pos : nat) (s : jsstring) :
  match rmatch (Seq (Quant isDigit n (Some n)) Eol) pos s accept with
  | Some _ => true | None => false end
  = Nat.eqb (length s) n && forallb isDigit s.
Proof.
  simpl. rewrite quant_exact.
  destruct (Nat.leb_spec n (length s)) as [Hle|Hlt]; simpl.
  - destruct (Nat.eqb_spec (length s) n) as [Heq|Hne]; simpl.
    + subst n. rewrite firstn_all, skipn_all.
      destruct (forallb isDigit s); reflexivity.
    + destruct (forallb isDigit (firstn n s)); [|reflexivity].
      destruct (skipn n s) eqn:Hs; [|reflexivity].
      apply (f_equal (@length _)) in Hs. rewrite length_skipn in Hs.
      simpl in Hs. lia.
  - destruct (Nat.eqb_spec (length s) n); [lia|reflexivity].
Qed.

Lemma test_re_d10 (s : jsstring) : test re_d10 s = ten_digits s.
Proof. unfold re_d10. rewrite test_bol. apply digits_to_end. Qed.

Lemma test_re_9_d9 (s : jsstring) :
  test re_9_d9 s = ten_digits s && starts Chars.d9 s.
Proof.
  unfold re_9_d9. rewrite test_bol.
  change (rmatch (Seq (Chr (chr_eqb Chars.d9)) (Seq (Quant isDigit 9 (Some 9)) Eol))
                 0 s accept)
    with (match s with
          | c :: s' =>
              if chr_eqb Chars.d9 c
              then rmatch (Seq (Quant isDigit 9 (Some 9)) Eol) 1 s' accept
              else None
          | [] => None
          end).
  unfold ten_digits. destruct s as [|c s]; [reflexivity|].
  unfold starts, chr_eqb. rewrite (N.eqb_sym Chars.d9 c).
  destruct (N.eqb_spec c Chars.d9) as [->|Hne].
  - rewrite digits_to_end. simpl. rewrite andb_true_r. reflexivity.
  - rewrite andb_false_r. reflexivity.
Qed.

(** The code computes the amended procedure: on the string with every
    character but digits and [+] removed, the five rules in order. *)
Lemma normalizePhone_rules (raw : jsstring) :
  normalizePhone raw = normalize_amended raw.
Proof.
  unfold normalizePhone, normalize_amended, strip_all, rules.
  rewrite remove_notDigitOrPlus.
  set (s := filter keep raw).
  change (js "8") with [Chars.d8]. change (js "7") with [Chars.d7].
  change (js "+7") with [Chars.plus; Chars.d7]. change (js "+") with [Chars.plus].
  rewrite !startsWith_one, test_re_9_d9, test_re_d10.
  unfold substring_from.
  destruct (starts Chars.d8 s) eqn:H8.
  - destruct s; [discriminate|reflexivity].
  - reflexivity.
Qed.

Lemma rules_plus (s : jsstring) : rules (Chars.plus :: s) = Chars.plus :: s.
Proof.
  unfold rules, ten_digits. simpl. rewrite !andb_false_r. reflexivity.
Qed.

Lemma rules_idempotent (s : jsstring) : rules (rules s) = rules s.
Proof.
  unfold rules at 2 3.
  destruct (starts Chars.d8 s) eqn:H8; [apply rules_plus|].
  destruct (starts Chars.d7 s && negb (startsWith s [Chars.plus; Chars.d7])) eqn:H7;
    [apply rules_plus|].
  destruct (ten_digits s && starts Chars.d9 s) eqn:H9; [apply rules_plus|].
  destruct (ten_digits s) eqn:H10; [apply rules_plus|].
  unfold rules. rewrite H8, H7, H10. reflexivity.
Qed.

Lemma filter_keep_fixed (s : jsstring) :
  forallb keep s = true -> filter keep s = s.
Proof.
  induction s as [|c s IH]; simpl; [reflexivity|].
  intros H. apply andb_prop in H. destruct H as [Hc Hs].
  rewrite Hc, IH by assumption. reflexivity.
Qed.

Lemma strip_all_kept (raw : jsstring) : forallb keep (strip_all raw) = true.
Proof.
  unfold strip_all. apply forallb_forall. intros c Hc.
  apply filter_In in Hc. tauto.
Qed.

Lemma rules_kept (s : jsstring) :
  forallb keep s = true -> forallb keep (rules s) = true.
Proof.
  intros H. unfold rules.
  assert (Htl : forallb keep (tl s) = true).
  { destruct s; simpl in *; [reflexivity|]. apply andb_prop in H. tauto. }
  repeat match goal with
         | |- context [if ?b then _ else _] => destruct b
         end; simpl; auto.
Qed.

Lemma normalizePhone_kept (raw : jsstring) :
  forallb keep (normalizePhone raw) = true.
Proof.
  rewrite normalizePhone_rules. apply rules_kept, strip_all_kept.
Qed.

(** Where no [+] follows the first kept character, the procedure as
    written and the code agree. *)
Lemma normalize_as_written (raw : jsstring) :
  forallb isDigit (tl (filter keep raw)) = true ->
  Spec.normalize raw = normalizePhone raw.
Proof.
  intros H. rewrite normalizePhone_rules.
  unfold Spec.normalize, normalize_amended, strip_all, strip_leading.
  assert (Hid : forall l, forallb isDigit l = true -> filter isDigit l = l).
  { induction l as [|c l IH]; simpl; [reflexivity|]. intros Hl.
    apply andb_prop in Hl. destruct Hl as [Hc Hl]. rewrite Hc, IH by assumption.
    reflexivity. }
  pose proof (strip_all_kept raw) as Hk. unfold strip_all in Hk.
  destruct (filter keep raw) as [|c rest]; [reflexivity|].
  simpl in H, Hk. apply andb_prop in Hk. destruct Hk as [Hc _].
  destruct (isPlus c) eqn:Hp.
  - rewrite (Hid rest H). reflexivity.
  - unfold keep in Hc. rewrite Hp, orb_false_r in Hc.
    cbn [filter]. rewrite Hc, (Hid rest H). reflexivity.
Qed.

Lemma filter_dropWhile (f p : jschar -> bool) (s : jsstring) :
  (forall c, p c = true -> f c = false) ->
  filter f (dropWhile p s) = filter f s.
Proof.
  intros Hp. induction s as [|c s IH]; simpl; [reflexivity|].
  destruct (p c) eqn:Hc; [|reflexivity].
  rewrite (Hp c Hc). exact IH.
Qed.

(** Trimming removes only characters the normalizer removes anyway. *)
Lemma normalizePhone_trim (s : jsstring) :
  normalizePhone (trim s) = normalizePhone s.
Proof.
  rewrite !normalizePhone_rules. unfold normalize_amended, strip_all, trim.
  f_equal. rewrite filter_rev, filter_dropWhile by apply space_not_kept.
  rewrite filter_rev, rev_involutive.
  apply filter_dropWhile, space_not_kept.
Qed.

End NormalizeFacts.

(** C4 (procedure as written): on a text with a [+] after a digit the code
    keeps the [+] that the written step 1 strips. *)
Lemma normalizePhone_keeps_inner_plus :
  normalizePhone (js "1+2") = js "1+2"
  /\ Spec.normalize (js "1+2") = js "12"
  /\ normalizePhone (js "1+2") <> Spec.normalize (js "1+2").
Proof. repeat split. vm_compute. discriminate. Qed.

(** C4 (amended): for every input, [normalizePhone] is the procedure with
    step 1 stripping every character except digits and [+] (any [+], not
    only a leading one), followed by the five rules as written; the empty
    string and the four sample numbers normalize as listed. *)
Theorem normalizePhone_procedure :
  (forall raw, normalizePhone raw = Spec.normalize_amended raw)
  /\ normalizePhone (js "") = js ""
  /\ normalizePhone (js "89991234567") = js "+79991234567"
  /\ normalizePhone (js "+79991234567") = js "+79991234567"
  /\ normalizePhone (js "79991234567") = js "+79991234567"
  /\ normalizePhone (js "9991234567") = js "+79991234567".
Proof.
  split; [exact normalizePhone_rules|].
  repeat split; vm_compute; reflexivity.
Qed.

(** C5: [normalizePhone] is idempotent. *)
Theorem normalizePhone_idempotent (p : jsstring) :
  normalizePhone (normalizePhone p) = normalizePhone p.
Proof.
  rewrite !normalizePhone_rules. unfold Spec.normalize_amended.
  unfold Spec.strip_all at 1.
  rewrite filter_keep_fixed by apply rules_kept, strip_all_kept.
  apply rules_idempotent.
Qed.

(* ================================================================== *)
(** * parsePhoneNumbers *)
(* ================================================================== *)

Section ExtractFacts.
Import Regex Spec.

Lemma app_same_length (A : Type) : forall (a c b d : list A),
  a ++ b = c ++ d -> length a = length c -> a = c.
Proof.
  induction a as [|x a IH]; intros [|y c] b d Heq Hlen;
    simpl in *; try discriminate; [reflexivity|].
  inversion Heq; subst. f_equal. eapply IH; eauto.
Qed.

Lemma alt_cases (r1 r2 : regex) (pos : nat) (s : jsstring) (k : cont) (e : nat) :
  rmatch (Alt r1 r2) pos s k = Some e ->
  rmatch r1 pos s k = Some e \/ rmatch r2 pos s k = Some e.
Proof.
  simpl. destruct (rmatch r1 pos s k); intros H; [left|right]; exact H.
Qed.

(** [\d[\d\s\-\(\)]{7,}\d] from the current position. *)
Lemma body_shape (pos : nat) (s : jsstring) (e : nat) :
  rmatch (Seq (Chr isDigit) (Seq (Quant phoneBody 7 None) (Chr isDigit)))
         pos s accept = Some e ->
  exists d1 interior d2 rest,
    s = d1 :: interior ++ d2 :: rest
    /\ isDigit d1 = true /\ isDigit d2 = true
    /\ forallb phoneBody interior = true
    /\ 7 <= length interior
    /\ e = pos + 2 + length interior.
Proof.
  simpl. destruct s as [|d1 s1]; [discriminate|].
  destruct (isDigit d1) eqn:Hd1; [|discriminate].
  intros H. apply quant_sound in H.
  destruct H as (n & Hmin & _ & Hlen & Hall & Hk).
  destruct (skipn n s1) as [|d2 rest] eqn:Hrest; [discriminate|].
  destruct (isDigit d2) eqn:Hd2; [|discriminate].
  unfold accept in Hk. inversion Hk; subst e; clear Hk.
  exists d1, (firstn n s1), d2, rest.
  rewrite <- Hrest, firstn_skipn, length_firstn.
  repeat split; auto; lia.
Qed.

(** What one successful attempt of the phone pattern consumed. *)
Lemma phoneRegex_exec (pos : nat) (s : jsstring) (e : nat) :
  exec_at phoneRegex pos s = Some e ->
  exists m rest, s = m ++ rest /\ e = pos + length m /\ phone_shaped 7 m.
Proof.
  unfold exec_at, phoneRegex. intros H.
  assert (Hbody : forall p t e',
    rmatch (Seq (Chr isDigit) (Seq (Quant phoneBody 7 None) (Chr isDigit)))
           p t accept = Some e' ->
    exists d1 interior d2 rest,
      t = d1 :: interior ++ d2 :: rest
      /\ isDigit d1 = true /\ isDigit d2 = true
      /\ forallb phoneBody interior = true
      /\ 7 <= length interior
      /\ e' = p + 2 + length interior).
  { intros p t e' H'. apply body_shape. exact H'. }
  apply alt_cases in H. destruct H as [Hfirst|H].
  - change (quant isPlus 0 (Some 1) pos s
              (fun p' s' =>
                 rmatch (Seq (Chr isDigit)
                             (Seq (Quant phoneBody 7 None) (Chr isDigit)))
                        p' s' accept) = Some e) in Hfirst.
    apply quant_sound in Hfirst.
    destruct Hfirst as (n & _ & Hmax & Hlen & Hall & Hk).
    specialize (Hmax 1 eq_refl).
    apply Hbody in Hk.
    destruct Hk as (d1 & interior & d2 & rest & Hs & Hd1 & Hd2 & Hin & Hseven & He).
    exists (firstn n s ++ [d1] ++ interior ++ [d2]), rest.
    split; [|split].
    + rewrite <- (firstn_skipn n s) at 1. rewrite Hs.
      rewrite <- !app_assoc. reflexivity.
    + rewrite !length_app, length_firstn. simpl. lia.
    + exists (firstn n s), d1, interior, d2. repeat split; auto.
      destruct n as [|[|n]]; [left; reflexivity| |lia].
      destruct s as [|c s]; [simpl in Hlen; lia|]. right.
      simpl in Hall. rewrite andb_true_r in Hall.
      unfold isPlus, chr_eqb in Hall. apply N.eqb_eq in Hall. subst c.
      reflexivity.
  - apply Hbody in H.
    destruct H as (d1 & interior & d2 & rest & Hs & Hd1 & Hd2 & Hin & Hseven & He).
    exists ([] ++ [d1] ++ interior ++ [d2]), rest.
    split; [|split].
    + rewrite Hs. simpl. rewrite <- app_assoc. reflexivity.
    + simpl. rewrite length_app. simpl. lia.
    + exists [], d1, interior, d2. repeat split; auto.
Qed.

Lemma phone_shaped_length (n : nat) (m : jsstring) :
  phone_shaped n m -> n + 2 <= length m.
Proof.
  intros (sign & d1 & interior & d2 & Hm & _ & _ & _ & _ & Hn).
  subst m. rewrite !length_app. simpl. lia.
Qed.

(** A match begins with [+] or a digit and ends with a digit, so
    [trim] leaves it as it is. *)
Lemma phone_shaped_trim (n : nat) (m : jsstring) :
  phone_shaped n m -> trim m = m.
Proof.
  intros (sign & d1 & interior & d2 & Hm & Hsign & Hd1 & Hd2 & _ & _).
  unfold trim.
  assert (Hfront : dropWhile isSpace m = m).
  { subst m. destruct Hsign as [->| ->]; simpl.
    - rewrite (digit_not_space _ Hd1). reflexivity.
    - reflexivity. }
  rewrite Hfront. subst m.
  rewrite !rev_app_distr. simpl.
  rewrite (digit_not_space _ Hd2).
  change (d2 :: (rev interior ++ [d1]) ++ rev sign)
    with (rev [d2] ++ (rev interior ++ rev [d1]) ++ rev sign).
  rewrite <- !rev_app_distr, rev_involutive, <- !app_assoc. reflexivity.
Qed.

Section Scan.
Variable r : regex.

Lemma match_all_from_skip : forall k s pos,
  k <= length s ->
  match_all_from r k pos s = match_all_from r 0 (pos + k) (skipn k s).
Proof.
  induction k as [|k IH]; intros s pos Hk.
  - rewrite Nat.add_0_r. reflexivity.
  - destruct s as [|c s]; simpl in Hk; [lia|].
    simpl. rewrite IH by lia. f_equal. lia.
Qed.

Lemma scans_shift (pos : nat) (c : jschar) (s : jsstring) (ms : list jsstring) :
  exec_at r pos (c :: s) = None ->
  scans r (S pos) s ms -> scans r pos (c :: s) ms.
Proof.
  intros Hnone Hs. inversion Hs as [pos' s' Hall|pos' pre m rest ms' Hpre Hm Hne Hrest]; subst.
  - apply scans_done. intros [|i] Hi.
    + rewrite Nat.add_0_r. exact Hnone.
    + simpl in Hi. replace (pos + S i) with (S pos + i) by lia.
      apply Hall. lia.
  - change (c :: pre ++ m ++ rest) with ((c :: pre) ++ m ++ rest).
    apply scans_match; auto.
    + intros [|i] Hi.
      * rewrite Nat.add_0_r. exact Hnone.
      * simpl in Hi. replace (pos + S i) with (S pos + i) by lia.
        apply Hpre. lia.
    + simpl. replace (pos + S (length pre)) with (S pos + length pre) by lia.
      exact Hm.
    + simpl. replace (pos + S (length pre)) with (S pos + length pre) by lia.
      exact Hrest.
Qed.

(** Every match of the pattern uses at least one character and stays
    within the text. *)
Hypothesis productive : forall pos s e,
  exec_at r pos s = Some e -> pos < e <= pos + length s.

Lemma match_all_from_scans : forall n s pos,
  length s <= n -> scans r pos s (match_all_from r 0 pos s).
Proof.
  induction n as [|n IH]; intros s pos Hlen.
  - destruct s; [|simpl in Hlen; lia]. simpl.
    destruct (exec_at r pos []) as [e|] eqn:He.
    + apply productive in He. simpl in He. lia.
    + apply scans_done. intros i Hi. simpl in Hi.
      replace i with 0 by lia. rewrite Nat.add_0_r. exact He.
  - destruct s as [|c s].
    + apply (IH [] pos). simpl. lia.
    + simpl in Hlen. cbn [match_all_from].
      destruct (exec_at r pos (c :: s)) as [e|] eqn:He.
      * pose proof (productive _ _ He) as Hb. simpl in Hb.
        rewrite match_all_from_skip by lia.
        set (k := e - pos) in *.
        assert (Hk : 1 <= k <= S (length s)) by (unfold k; lia).
        assert (Hm : length (firstn k (c :: s)) = k)
          by (rewrite length_firstn; simpl; lia).
        replace (S pos + (k - 1)) with (pos + length (@nil jschar) + length (firstn k (c :: s)))
          by (rewrite Hm; simpl; lia).
        replace (skipn (k - 1) s) with (skipn k (c :: s))
          by (destruct k; [lia|simpl; f_equal; lia]).
        rewrite <- (firstn_skipn k (c :: s)) at 1.
        change (firstn k (c :: s) ++ skipn k (c :: s))
          with ([] ++ firstn k (c :: s) ++ skipn k (c :: s)).
        apply scans_match.
        -- intros i Hi. simpl in Hi. lia.
        -- simpl length at 1. rewrite Nat.add_0_r, firstn_skipn, Hm, He.
           f_equal. unfold k. simpl. lia.
        -- intros Hnil. rewrite Hnil in Hm. simpl in Hm. lia.
        -- apply IH. rewrite length_skipn. cbn [length]. lia.
      * apply scans_shift; [exact He|]. apply IH. lia.
Qed.

Lemma scans_matches (pos : nat) (s : jsstring) (ms : list jsstring) :
  scans r pos s ms ->
  Forall (fun m => exists p rest, exec_at r p (m ++ rest) = Some (p + length m)) ms.
Proof.
  induction 1; constructor; auto.
  eexists _, _. eassumption.
Qed.

End Scan.

Lemma phoneRegex_productive (pos : nat) (s : jsstring) (e : nat) :
  exec_at phoneRegex pos s = Some e -> pos < e <= pos + length s.
Proof.
  intros H. apply phoneRegex_exec in H.
  destruct H as (m & rest & Hs & He & Hshape).
  apply phone_shaped_length in Hshape.
  subst s e. rewrite length_app. lia.
Qed.

Lemma phone_matches_scanned (text : jsstring) :
  scans phoneRegex 0 text (match_all phoneRegex text).
Proof.
  unfold match_all.
  eapply match_all_from_scans; [exact phoneRegex_productive|reflexivity].
Qed.

Lemma phone_matches_shaped (text : jsstring) :
  Forall (phone_shaped 7) (match_all phoneRegex text).
Proof.
  pose proof (scans_matches (phone_matches_scanned text)) as H.
  eapply Forall_impl; [|exact H]. cbv beta.
  intros m (p & rest & Hm). apply phoneRegex_exec in Hm.
  destruct Hm as (m' & rest' & Heq & He & Hshape).
  assert (m = m') by (eapply app_same_length; [exact Heq|lia]).
  subst m'. exact Hshape.
Qed.

(** Where the pattern matches at no position, nothing is extracted. *)
Lemma no_match_no_entry (text : jsstring) :
  (forall i, i <= length text -> exec_at phoneRegex i (skipn i text) = None) ->
  parsePhoneNumbers text = [].
Proof.
  intros Hnone. unfold parsePhoneNumbers.
  pose proof (phone_matches_scanned text) as Hs.
  inversion Hs as [pos s Hall|pos pre m rest ms Hpre Hm Hne Hrest]; subst;
    [reflexivity|].
  specialize (Hnone (length pre)).
  rewrite skipn_app, skipn_all, Nat.sub_diag in Hnone. simpl in Hnone, Hm.
  rewrite Hnone in Hm; [discriminate|].
  rewrite length_app. lia.
Qed.

End ExtractFacts.

(** C6: [parsePhoneNumbers text] has one entry per match of the phone
    pattern, the matches being the leftmost non-overlapping ones in
    left-to-right order; each entry's [original] is the trimmed match
    (which is the match itself) and its [normalized] is [normalizePhone] of
    that original; a text without a match gives the empty list; the sample
    sentence gives exactly one entry, normalized to +79991234567. *)
Theorem parsePhoneNumbers_matches (text : jsstring) :
  Spec.scans phoneRegex 0 text (Regex.match_all phoneRegex text)
  /\ parsePhoneNumbers text
     = map (fun m => {| original := trim m; normalized := normalizePhone (trim m) |})
           (Regex.match_all phoneRegex text)
  /\ map original (parsePhoneNumbers text) = Regex.match_all phoneRegex text
  /\ length (parsePhoneNumbers text) = length (Regex.match_all phoneRegex text)
  /\ parsePhoneNumbers (js "no numbers here") = []
  /\ parsePhoneNumbers (js "call me at 8-999-123-45-67 please")
     = [ {| original := js "8-999-123-45-67"; normalized := js "+79991234567" |} ].
Proof.
  split; [apply phone_matches_scanned|].
  split.
  { unfold parsePhoneNumbers. apply map_ext. intros m.
    rewrite normalizePhone_trim. reflexivity. }
  split.
  { unfold parsePhoneNumbers. rewrite map_map. cbn [original].
    pose proof (phone_matches_shaped text) as H.
    induction H as [|m ms Hm _ IH]; simpl; [reflexivity|].
    rewrite (phone_shaped_trim Hm), IH. reflexivity. }
  split; [unfold parsePhoneNumbers; apply length_map|].
  split; vm_compute; reflexivity.
Qed.

(** C7 (as written): a run of nine digits is matched although only seven
    characters lie strictly between its first and last digit. *)
Lemma nine_digit_run_is_matched :
  map original (parsePhoneNumbers (js "123456789")) = [js "123456789"]
  /\ ~ Spec.phone_shaped 9 (js "123456789").
Proof.
  split; [vm_compute; reflexivity|].
  intros H. apply phone_shaped_length in H. vm_compute in H. lia.
Qed.

(** C7 (amended): every match produced by the extractor is an optional
    [+], a digit, at least 7 interior characters drawn from digits,
    whitespace, hyphens and parentheses, and a digit; so no match has fewer
    than 9 characters. *)
Theorem extract_match_shape (text : jsstring) :
  Forall (fun e => Spec.phone_shaped 7 (original e) /\ 9 <= length (original e))
         (parsePhoneNumbers text).
Proof.
  unfold parsePhoneNumbers. apply Forall_map. cbn [original].
  eapply Forall_impl; [|apply phone_matches_shaped].
  intros m Hm. rewrite (phone_shaped_trim Hm).
  split; [exact Hm|]. apply phone_shaped_length in Hm. lia.
Qed.

(* ================================================================== *)
(** * saveContact *)
(* ================================================================== *)

Section SaveFacts.
Import Sql Spec.

Lemma str_eqb_refl (s : jsstring) : str_eqb s s = true.
Proof.
  induction s as [|c s IH]; simpl; [reflexivity|].
  unfold chr_eqb. rewrite N.eqb_refl. exact IH.
Qed.

Lemma str_eqb_eq (a b : jsstring) : str_eqb a b = true <-> a = b.
Proof.
  split; [|intros ->; apply str_eqb_refl].
  revert b. induction a as [|x a IH]; intros [|y b] H; simpl in H;
    try discriminate; [reflexivity|].
  apply andb_prop in H. destruct H as [Hx Hab].
  unfold chr_eqb in Hx. apply N.eqb_eq in Hx. subst y.
  rewrite (IH b Hab). reflexivity.
Qed.

Lemma no_collision_no_key (p n : jsstring) (rows : list contact) :
  existsb (collides p n) rows = false -> filter (has_key n) rows = [].
Proof.
  induction rows as [|c rows IH]; simpl; [reflexivity|].
  intros H. apply orb_false_elim in H. destruct H as [Hc Hrows].
  unfold collides in Hc. apply orb_false_elim in Hc. destruct Hc as [_ Hn].
  unfold has_key at 1. rewrite Hn. auto.
Qed.

Lemma survivors_no_key (p n : jsstring) (rows : list contact) :
  filter (has_key n) (filter (fun c => negb (collides p n c)) rows) = [].
Proof.
  induction rows as [|c rows IH]; simpl; [reflexivity|].
  destruct (collides p n c) eqn:Hc; simpl; [exact IH|].
  unfold collides in Hc. apply orb_false_elim in Hc. destruct Hc as [_ Hn].
  unfold has_key at 1. rewrite Hn. exact IH.
Qed.

Lemma new_contact_collides (now : N) (p p' n : jsstring) (nm co cx : sqltext) (d : db) :
  collides p' n (new_contact now p n nm co cx d) = true.
Proof. unfold collides. simpl. rewrite str_eqb_refl. apply orb_true_r. Qed.

(** Insert-or-ignore, twice under one key, the first on a store that
    holds neither the phone nor the key. *)
Lemma ignore_twice (now1 now2 : N) (p1 p2 n : jsstring)
      (nm1 co1 cx1 nm2 co2 cx2 : sqltext) (d : db) :
  existsb (collides p1 n) (contacts d) = false ->
  let d1 := insert_or_ignore now1 p1 n nm1 co1 cx1 d in
  let d2 := insert_or_ignore now2 p2 n nm2 co2 cx2 d1 in
  contacts d2 = contacts d1
  /\ lastID d2 = lastID d1
  /\ filter (has_key n) (contacts d2) = [new_contact now1 p1 n nm1 co1 cx1 d].
Proof.
  intros Hfresh. cbv zeta.
  assert (H1 : insert_or_ignore now1 p1 n nm1 co1 cx1 d
               = append_contact (new_contact now1 p1 n nm1 co1 cx1 d) d).
  { unfold insert_or_ignore. rewrite Hfresh. reflexivity. }
  rewrite H1.
  assert (H2 : insert_or_ignore now2 p2 n nm2 co2 cx2
                 (append_contact (new_contact now1 p1 n nm1 co1 cx1 d) d)
               = spend_rowid (append_contact (new_contact now1 p1 n nm1 co1 cx1 d) d)).
  { unfold insert_or_ignore. cbn [contacts append_contact].
    rewrite existsb_app. cbn [existsb].
    rewrite new_contact_collides, orb_true_r. reflexivity. }
  rewrite H2. split; [reflexivity|]. split; [reflexivity|].
  cbn [contacts append_contact spend_rowid].
  rewrite filter_app, (no_collision_no_key _ _ _ Hfresh).
  cbn [filter app]. unfold has_key. cbn [normalized_phone new_contact].
  rewrite str_eqb_refl. reflexivity.
Qed.

(** Insert-or-replace: whatever preceded, the key's only row is the one
    just written. *)
Lemma replace_wins (now : N) (p n : jsstring) (nm co cx : sqltext) (d : db) :
  let d' := insert_or_replace now p n nm co cx d in
  exists c, filter (has_key n) (contacts d') = [c]
            /\ phone c = p /\ name c = nm /\ company c = co /\ context c = cx
            /\ created_at c = now.
Proof.
  simpl. unfold insert_or_replace. simpl.
  rewrite filter_app, survivors_no_key. simpl.
  unfold has_key at 1. simpl. rewrite str_eqb_refl.
  eexists. split; [reflexivity|]. simpl. repeat split; reflexivity.
Qed.

End SaveFacts.

(** C1 (as written): with the first copy's [saveContact] (INSERT OR
    REPLACE) the second save under one key is not a no-op: the row now holds
    the second original and the second name. *)
Lemma replace_overwrites_first_save :
  let d1 := fst (ServerA.saveContact 1 Samples.raw_8 Samples.canonical
                   Samples.ann None None Sql.empty_db) in
  let d2 := fst (ServerA.saveContact 2 Samples.raw_plus7 Samples.canonical
                   Samples.bob None None d1) in
  map Sql.phone (Sql.contacts d1) = [Samples.raw_8]
  /\ map Sql.phone (Sql.contacts d2) = [Samples.raw_plus7]
  /\ map Sql.name (Sql.contacts d2) = [Samples.bob]
  /\ Sql.contacts d2 <> Sql.contacts d1.
Proof. repeat split. vm_compute. discriminate. Qed.

(** C1 (amended): two saves under one normalized phone [n], the first on a
    store holding neither [p1] nor [n], leave exactly one row with that
    key. With the insert-or-ignore [saveContact] ([Database] class, second
    server copy) the second call is a no-op on the contacts and the row is
    the first call's: original [p1] and its name, company and context. With
    the insert-or-replace [saveContact] of the first server copy the row is
    the second call's: original [p2] and its name, company and context. *)
Theorem saveContact_same_key (now1 now2 : N) (p1 p2 n : jsstring)
        (nm1 co1 cx1 nm2 co2 cx2 : Sql.sqltext) (d : Sql.db) :
  existsb (Sql.collides p1 n) (Sql.contacts d) = false ->
  (let d1 := fst (Database.saveContact now1 p1 n nm1 co1 cx1 d) in
   let d2 := fst (Database.saveContact now2 p2 n nm2 co2 cx2 d1) in
   Sql.contacts d2 = Sql.contacts d1
   /\ exists c, filter (Spec.has_key n) (Sql.contacts d2) = [c]
                /\ Sql.phone c = p1 /\ Sql.name c = nm1
                /\ Sql.company c = co1 /\ Sql.context c = cx1)
  /\ (let d1 := fst (ServerB.saveContact now1 p1 n nm1 co1 cx1 d) in
      let d2 := fst (ServerB.saveContact now2 p2 n nm2 co2 cx2 d1) in
      Sql.contacts d2 = Sql.contacts d1
      /\ exists c, filter (Spec.has_key n) (Sql.contacts d2) = [c]
                   /\ Sql.phone c = p1 /\ Sql.name c = nm1
                   /\ Sql.company c = co1 /\ Sql.context c = cx1)
  /\ (let d1 := fst (ServerA.saveContact now1 p1 n nm1 co1 cx1 d) in
      let d2 := fst (ServerA.saveContact now2 p2 n nm2 co2 cx2 d1) in
      exists c, filter (Spec.has_key n) (Sql.contacts d2) = [c]
                /\ Sql.phone c = p2 /\ Sql.name c = nm2
                /\ Sql.company c = co2 /\ Sql.context c = cx2).
Proof.
  intros Hfresh.
  pose proof (ignore_twice now1 now2 p1 p2 n nm1 co1 cx1 nm2 co2 cx2 d Hfresh)
    as (Hsame & _ & Hrow).
  assert (Hignore :
    let d1 := Sql.insert_or_ignore now1 p1 n nm1 co1 cx1 d in
    let d2 := Sql.insert_or_ignore now2 p2 n nm2 co2 cx2 d1 in
    Sql.contacts d2 = Sql.contacts d1
    /\ exists c, filter (Spec.has_key n) (Sql.contacts d2) = [c]
                 /\ Sql.phone c = p1 /\ Sql.name c = nm1
                 /\ Sql.company c = co1 /\ Sql.context c = cx1).
  { split; [exact Hsame|]. eexists. split; [exact Hrow|].
    repeat split; reflexivity. }
  split; [exact Hignore|]. split; [exact Hignore|].
  cbv zeta. unfold ServerA.saveContact. cbn [fst].
  destruct (replace_wins now2 p2 n nm2 co2 cx2
              (Sql.insert_or_replace now1 p1 n nm1 co1 cx1 d))
    as (c & Hc & Hp & Hn & Hco & Hcx & _).
  exists c. auto.
Qed.

Lemma saveContact_same_key_witness :
  existsb (Sql.collides Samples.raw_8 Samples.canonical)
          (Sql.contacts Sql.empty_db) = false
  /\ Sql.contacts
       (fst (Database.saveContact 2 Samples.raw_plus7 Samples.canonical
               Samples.bob None None
               (fst (Database.saveContact 1 Samples.raw_8 Samples.canonical
                       Samples.ann None None Sql.empty_db))))
     = Sql.contacts
         (fst (Database.saveContact 1 Samples.raw_8 Samples.canonical
                 Samples.ann None None Sql.empty_db)).
Proof.
  split; [reflexivity|].
  apply (saveContact_same_key 1 2 Samples.raw_8 Samples.raw_plus7
           Samples.canonical Samples.ann None None Samples.bob None None
           Sql.empty_db).
  reflexivity.
Defined.

(* ================================================================== *)
(** * updateContact and PUT /api/contacts/:id *)
(* ================================================================== *)

Section UpdateFacts.
Import Sql Http Spec.

Lemma set_contacts_same (d : db) : set_contacts (contacts d) d = d.
Proof. destruct d; reflexivity. Qed.

(** No row selected: nothing changes, whatever the SET clause. *)
Lemma update_rows_missing (now : N) (p : idparam) (sets : list (column * sqltext))
      (all : list contact) : forall rows,
  existsb (id_is p) rows = false ->
  update_rows now p sets all rows = Ok (rows, 0).
Proof.
  induction rows as [|c rows IH]; simpl; [reflexivity|].
  intros H. apply orb_false_elim in H. destruct H as [Hc Hrows].
  rewrite IH, Hc by assumption. reflexivity.
Qed.

Lemma updateContact_missing (now : N) (p : idparam)
      (updates : list (column * sqltext)) (d : db) :
  existsb (id_is p) (contacts d) = false ->
  Store.updateContact now p updates d = Ok (d, 0).
Proof.
  intros H. unfold Store.updateContact, update_where_id.
  rewrite update_rows_missing by assumption.
  rewrite set_contacts_same. reflexivity.
Qed.

(** The first copy maps a missing contact to 404 and the failure shape. *)
Lemma ServerA_put_missing (now : N) (p : idparam) (body : put_body) (d : db) :
  existsb (id_is p) (contacts d) = false ->
  ServerA.put_contact now p body d
  = (d, {| status := 404; success := false; message := None;
           error := Some (js "Contact not found or no changes made") |}).
Proof.
  intros H. unfold ServerA.put_contact.
  rewrite updateContact_missing by assumption. reflexivity.
Qed.

(** The second copy answers with the success shape all the same. *)
Lemma ServerB_put_missing (now : N) (p : idparam) (body : put_body) (d : db) :
  existsb (id_is p) (contacts d) = false ->
  ServerB.put_contact now p body d
  = (d, {| status := 200; success := true; message := None; error := None |}).
Proof.
  intros H. unfold ServerB.put_contact.
  rewrite updateContact_missing by assumption. reflexivity.
Qed.

(** What [SET name = ?, updated_at = CURRENT_TIMESTAMP] makes of a row. *)
Lemma assign_name (c : contact) (x : sqltext) :
  assign_all c [(Cname, x)]
  = Some {| id := id c; phone := phone c; normalized_phone := normalized_phone c;
            name := x; company := company c; context := context c;
            created_at := created_at c; updated_at := updated_at c |}.
Proof. reflexivity. Qed.

Lemma update_rows_name (now : N) (p : idparam) (x : sqltext) (all : list contact) :
  forall rows,
    update_rows now p [(Cname, x)] all rows
    = Ok (map (fun r =>
                 if id_is p r then
                   {| id := id r; phone := phone r;
                      normalized_phone := normalized_phone r;
                      name := x; company := company r; context := context r;
                      created_at := created_at r; updated_at := now |}
                 else r) rows,
          length (filter (id_is p) rows)).
Proof.
  induction rows as [|c rows IH]; [reflexivity|].
  cbn [update_rows]. rewrite IH. cbn [map filter].
  destruct (id_is p c); reflexivity.
Qed.

Lemma build_updates_mutable (b : put_body) : only_mutable (build_updates b) = true.
Proof. destruct b as [[?|] [?|] [?|]]; reflexivity. Qed.

Lemma assign_all_mutable : forall sets c,
  only_mutable sets = true ->
  exists c', assign_all c sets = Some c' /\ fixed_part c' = fixed_part c.
Proof.
  induction sets as [|[col v] sets IH]; intros c H.
  - exists c. split; reflexivity.
  - simpl in H. apply andb_prop in H. destruct H as [Hcol Hsets].
    destruct col; try discriminate; cbn [assign_all assign];
      match goal with
      | |- context [assign_all ?c0 sets] =>
          destruct (IH c0 Hsets) as (c' & Hc' & Hfix)
      end; exists c'; (split; [exact Hc'|rewrite Hfix; reflexivity]).
Qed.

Lemma mutable_keeps_unique (sets : list (column * sqltext)) (c : contact)
      (all : list contact) :
  only_mutable sets = true -> breaks_unique sets c all = false.
Proof.
  intros H. unfold breaks_unique.
  assert (Hno : forall col, (col = Cphone \/ col = Cnormalized_phone) ->
                            existsb (names_column col) sets = false).
  { intros col Hcol. induction sets as [|[k v] sets IH]; [reflexivity|].
    simpl in H. apply andb_prop in H. destruct H as [Hk Hsets].
    cbn [existsb]. rewrite (IH Hsets), orb_false_r.
    destruct Hcol as [-> | ->]; destruct k; try discriminate; reflexivity. }
  rewrite (Hno Cphone), (Hno Cnormalized_phone) by auto. reflexivity.
Qed.

Lemma update_rows_mutable (now : N) (p : idparam) (sets : list (column * sqltext))
      (all : list contact) :
  only_mutable sets = true ->
  forall rows, exists rows' n,
    update_rows now p sets all rows = Ok (rows', n)
    /\ map fixed_part rows' = map fixed_part rows.
Proof.
  intros Hm. induction rows as [|c rows (rows' & n & Hu & Hfix)].
  - exists [], 0. split; reflexivity.
  - cbn [update_rows]. rewrite Hu.
    destruct (id_is p c).
    + destruct (assign_all_mutable sets c Hm) as (c' & Hc' & Hfc).
      rewrite Hc', (mutable_keeps_unique sets c' all Hm).
      exists (touch now c' :: rows'), (S n). split; [reflexivity|].
      cbn [map]. rewrite Hfix. f_equal.
      unfold fixed_part in *. cbn. exact Hfc.
    + exists (c :: rows'), n. split; [reflexivity|].
      cbn [map]. rewrite Hfix. reflexivity.
Qed.

(** Through either copy of the PUT handler, no row's id, phone,
    normalized_phone or created_at changes. *)
Lemma put_contact_fixed_part (now : N) (p : idparam) (body : put_body) (d : db) :
  map fixed_part (contacts (fst (ServerA.put_contact now p body d)))
  = map fixed_part (contacts d)
  /\ map fixed_part (contacts (fst (ServerB.put_contact now p body d)))
     = map fixed_part (contacts d).
Proof.
  unfold ServerA.put_contact, ServerB.put_contact, Store.updateContact,
    update_where_id.
  destruct (update_rows_mutable now p (build_updates body) (contacts d)
              (build_updates_mutable body) (contacts d))
    as (rows' & n & Hu & Hfix).
  rewrite Hu. split; [destruct (0 <? n)|]; exact Hfix.
Qed.

End UpdateFacts.

(** C2: on an id that identifies no contact, [updateContact] reports 0
    changed rows; the first copy's PUT handler answers 404 with the failure
    shape, the second copy's answers 200 with [{success: true}]. *)
Theorem ServerB_put_unknown_id_succeeds :
  Store.updateContact 9 (Sql.IdInt 999) [(Sql.Cname, Samples.ann)] Samples.one_contact
  = Sql.Ok (Samples.one_contact, 0)
  /\ snd (ServerA.put_contact 9 (Sql.IdInt 999) (Http.body_with_name Samples.ann)
            Samples.one_contact)
     = {| Http.status := 404; Http.success := false; Http.message := None;
          Http.error := Some (js "Contact not found or no changes made") |}
  /\ snd (ServerB.put_contact 9 (Sql.IdInt 999) (Http.body_with_name Samples.ann)
            Samples.one_contact)
     = {| Http.status := 200; Http.success := true; Http.message := None;
          Http.error := None |}.
Proof. repeat split. Qed.

(** C8: for an existing contact id, [updateContact(id, {name: x})]
    succeeds and rewrites only [name] and [updated_at] of the rows with
    that id: every other column of the row and every other row stay as
    they were; the PUT handler of either copy performs this update for a
    body [{name: x}], and for no body does it change a row's id, phone,
    normalized_phone or created_at. *)
Theorem updateContact_name_only (now i : N) (x : Sql.sqltext) (d : Sql.db)
        (c : Sql.contact) :
  In c (Sql.contacts d) -> Sql.id c = i ->
  exists d' n,
    Store.updateContact now (Sql.IdInt i) [(Sql.Cname, x)] d = Sql.Ok (d', n)
    /\ 0 < n
    /\ Sql.contacts d'
       = map (fun r =>
                if N.eqb (Sql.id r) i then
                  {| Sql.id := Sql.id r; Sql.phone := Sql.phone r;
                     Sql.normalized_phone := Sql.normalized_phone r;
                     Sql.name := x; Sql.company := Sql.company r;
                     Sql.context := Sql.context r;
                     Sql.created_at := Sql.created_at r;
                     Sql.updated_at := now |}
                else r) (Sql.contacts d)
    /\ Sql.parsed_messages d' = Sql.parsed_messages d
    /\ fst (ServerA.put_contact now (Sql.IdInt i) (Http.body_with_name x) d) = d'
    /\ fst (ServerB.put_contact now (Sql.IdInt i) (Http.body_with_name x) d) = d'
    /\ (forall p body,
          map Spec.fixed_part (Sql.contacts (fst (ServerA.put_contact now p body d)))
          = map Spec.fixed_part (Sql.contacts d)
          /\ map Spec.fixed_part (Sql.contacts (fst (ServerB.put_contact now p body d)))
             = map Spec.fixed_part (Sql.contacts d)).
Proof.
  intros Hin Hid.
  assert (Hn : 0 < length (filter (Sql.id_is (Sql.IdInt i)) (Sql.contacts d))).
  { assert (Hc : In c (filter (Sql.id_is (Sql.IdInt i)) (Sql.contacts d))).
    { apply filter_In. split; [exact Hin|]. simpl. apply N.eqb_eq. exact Hid. }
    destruct (filter (Sql.id_is (Sql.IdInt i)) (Sql.contacts d));
      [destruct Hc|simpl; lia]. }
  pose proof (update_rows_name now (Sql.IdInt i) x (Sql.contacts d) (Sql.contacts d))
    as Hu.
  eexists _, _. split.
  { unfold Store.updateContact, Sql.update_where_id. rewrite Hu. reflexivity. }
  split; [exact Hn|]. split; [reflexivity|]. split; [reflexivity|].
  split.
  { unfold ServerA.put_contact, Store.updateContact, Sql.update_where_id.
    change (Http.build_updates (Http.body_with_name x)) with [(Sql.Cname, x)].
    rewrite Hu. apply Nat.ltb_lt in Hn. rewrite Hn. reflexivity. }
  split.
  { unfold ServerB.put_contact, Store.updateContact, Sql.update_where_id.
    change (Http.build_updates (Http.body_with_name x)) with [(Sql.Cname, x)].
    rewrite Hu. reflexivity. }
  intros p body. apply put_contact_fixed_part.
Qed.

Lemma updateContact_name_only_witness :
  In Samples.stored_row (Sql.contacts Samples.one_contact)
  /\ Sql.id Samples.stored_row = 1%N
  /\ exists d' n,
       Store.updateContact 7 (Sql.IdInt 1) [(Sql.Cname, Samples.ann)]
                           Samples.one_contact = Sql.Ok (d', n)
       /\ 0 < n
       /\ map Sql.name (Sql.contacts d') = [Samples.ann]
       /\ map Sql.updated_at (Sql.contacts d') = [7%N]
       /\ map Spec.fixed_part (Sql.contacts d')
          = map Spec.fixed_part (Sql.contacts Samples.one_contact).
Proof.
  split; [left; reflexivity|]. split; [reflexivity|].
  destruct (@updateContact_name_only 7 1 Samples.ann Samples.one_contact
              Samples.stored_row)
    as (d' & n & Hu & Hn & Hrows & _).
  - left. reflexivity.
  - reflexivity.
  - exists d', n. rewrite Hrows. repeat split; assumption || reflexivity.
Defined.

(* ================================================================== *)
(** * searchContacts *)
(* ================================================================== *)

Section SearchFacts.
Import Sql Spec.

Lemma like_from_percent (pat str : jsstring) :
  like_from (Chars.percent :: pat) str
  = like_from pat str
    || match str with
       | [] => false
       | _ :: str' => like_from (Chars.percent :: pat) str'
       end.
Proof. destruct str; reflexivity. Qed.


Lemma like_from_any (str : jsstring) : like_from [Chars.percent] str = true.
Proof.
  induction str as [|c str IH]; rewrite like_from_percent; [reflexivity|].
  rewrite IH. apply orb_true_r.
Qed.



(** A string without NUL is read to its end. *)
Lemma c_string_nul_free (s : jsstring) : nul_free s = true -> c_string s = s.
Proof.
  unfold nul_free. induction s as [|c s IH]; intros H; [reflexivity|].
  cbn [forallb] in H. apply andb_prop in H. destruct H as [Hc Hs].
  apply negb_true_iff in Hc. cbn [c_string]. rewrite Hc, IH by exact Hs.
  reflexivity.
Qed.




Lemma insert_desc_perm (c : contact) (rows : list contact) :
  Permutation (insert_desc c rows) (c :: rows).
Proof.
  induction rows as [|x rows IH]; simpl; [reflexivity|].
  destruct (updated_at c <? updated_at x)%N; [|reflexivity].
  rewrite IH. apply perm_swap.
Qed.

Lemma order_by_perm (rows : list contact) :
  Permutation (order_by_updated_desc rows) rows.
Proof.
  induction rows as [|c rows IH]; simpl; [reflexivity|].
  rewrite insert_desc_perm. constructor. exact IH.
Qed.

Lemma insert_desc_sorted (c : contact) (rows : list contact) :
  newest_first rows -> newest_first (insert_desc c rows).
Proof.
  unfold newest_first. induction rows as [|x rows IH]; intros Hs; simpl.
  - constructor; constructor.
  - apply StronglySorted_inv in Hs. destruct Hs as [Hrows Hx].
    destruct (updated_at c <? updated_at x)%N eqn:Hcx.
    + apply N.ltb_lt in Hcx. constructor; [apply IH; exact Hrows|].
      eapply Permutation_Forall.
      * symmetry. apply insert_desc_perm.
      * constructor; [lia|exact Hx].
    + apply N.ltb_ge in Hcx. constructor.
      * constructor; assumption.
      * constructor; [exact Hcx|].
        eapply Forall_impl; [|exact Hx]. cbv beta. intros r Hr. lia.
Qed.

Lemma order_by_sorted (rows : list contact) :
  newest_first (order_by_updated_desc rows).
Proof.
  induction rows as [|c rows IH]; simpl.
  - constructor.
  - apply insert_desc_sorted. exact IH.
Qed.

(** For every query: the rows a column of which the pattern [%q%]
    matches, newest first. *)
Lemma searchContacts_rows (q : jsstring) (d : db) :
  Permutation (Store.searchContacts q d)
              (filter (row_like (js "%" ++ q ++ js "%")) (contacts d))
  /\ newest_first (Store.searchContacts q d).
Proof.
  unfold Store.searchContacts, select_like. split.
  - apply order_by_perm.
  - apply order_by_sorted.
Qed.

End SearchFacts.


(** Before the amended statement: a query holding NUL is cut there, so
    the NUL alone asks for every contact; and a column is searched up to
    its first NUL only. *)
Lemma nul_query_matches_all :
  Store.searchContacts [0%N] Samples.two_contacts
  = Store.searchContacts [] Samples.two_contacts
  /\ map Sql.id (Store.searchContacts [0%N] Samples.two_contacts) = [2%N; 1%N]
  /\ Sql.like (js "%acme%") (js "zzz" ++ 0%N :: js "acme") = false.
Proof. repeat split. Qed.



(* ================================================================== *)
(** * The message handler and the audit log *)
(* ================================================================== *)

Section HandlerFacts.
Import Sql Bot.

Variable saveContact :
  N -> jsstring -> jsstring -> sqltext -> sqltext -> sqltext -> db -> db * N.
Variable guarded : bool.
Variable on_error : outcome.

Hypothesis save_keeps_log : forall now p n nm co cx d,
  parsed_messages (fst (saveContact now p n nm co cx d)) = parsed_messages d.

Lemma each_phone_keeps_log (now : N) (text : jsstring) :
  forall phones responses d,
    parsed_messages (fst (each_phone saveContact guarded now text phones responses d))
    = parsed_messages d.
Proof.
  induction phones as [|ph phones IH]; intros responses d; [reflexivity|].
  cbn [each_phone].
  destruct (Store.findContactByPhone (normalized ph) d) as [c|].
  - destruct (block guarded ph (Some c)); [apply IH|reflexivity].
  - pose proof (save_keeps_log now (original ph) (normalized ph) None None
                               (Some (substring_to 200 text)) d) as Hs.
    destruct (saveContact now (original ph) (normalized ph) None None
                          (Some (substring_to 200 text)) d) as [d' contactId].
    cbn [fst] in Hs.
    destruct (block guarded ph (Store.findContactByPhone (normalized ph) d'));
      [rewrite IH|cbn [fst]]; exact Hs.
Qed.

Lemma on_message_keeps_log (now : N) (m : message) (d : db) :
  parsed_messages (fst (on_message saveContact guarded on_error now m d))
  = parsed_messages d.
Proof.
  unfold on_message.
  destruct (trim _); [reflexivity|].
  destruct (parsePhoneNumbers _) as [|ph phones]; [reflexivity|].
  pose proof (each_phone_keeps_log now
                (match msg_text m with Some t => t | None => [] end)
                (ph :: phones) [] d) as H.
  destruct (each_phone _ _ _ _ _ _ _) as [d' [[|r responses]|]]; exact H.
Qed.

End HandlerFacts.

Lemma insert_or_ignore_keeps_log (now : N) (p n : jsstring)
      (nm co cx : Sql.sqltext) (d : Sql.db) :
  Sql.parsed_messages (Sql.insert_or_ignore now p n nm co cx d) = Sql.parsed_messages d.
Proof.
  unfold Sql.insert_or_ignore. destruct (existsb _ _); reflexivity.
Qed.

(** C3 (as written): a message with one phone is answered and its contact
    stored, and no ParsedMessage record is appended, by either copy. *)
Lemma handler_appends_no_audit_record :
  length (parsePhoneNumbers (js "call me at 8-999-123-45-67 please")) = 1
  /\ snd (ServerA.on_message 1 Samples.sample_message Sql.empty_db)
     = Bot.Reply (Bot.found_prefix ++ Samples.canonical ++ Bot.backtick)
  /\ Sql.contacts (fst (ServerA.on_message 1 Samples.sample_message Sql.empty_db))
     = [Samples.stored_row]
  /\ Sql.parsed_messages (fst (ServerA.on_message 1 Samples.sample_message Sql.empty_db))
     = []
  /\ Sql.parsed_messages (fst (ServerB.on_message 1 Samples.sample_message Sql.empty_db))
     = [].
Proof. repeat split. Qed.

(** C3 (amended): for every inbound chat message, whatever the extractor
    finds in it, the message handler of either copy leaves the
    parsed_messages table as it was: it does not call [logParsedMessage].
    [logParsedMessage] itself appends exactly one record and leaves the
    contacts untouched. *)
Theorem on_message_leaves_audit_log (now : N) (m : Bot.message) (d : Sql.db) :
  Sql.parsed_messages (fst (ServerA.on_message now m d)) = Sql.parsed_messages d
  /\ Sql.parsed_messages (fst (ServerB.on_message now m d)) = Sql.parsed_messages d
  /\ forall messageId chatId contactId originalText,
       Sql.parsed_messages
         (fst (Database.logParsedMessage now messageId chatId contactId originalText d))
       = Sql.parsed_messages d ++
           [ {| Sql.pm_id := Sql.parsed_messages_seq d + 1;
                Sql.message_id := messageId; Sql.chat_id := chatId;
                Sql.contact_id := contactId; Sql.original_text := originalText;
                Sql.pm_created_at := now |} ]
       /\ Sql.contacts
            (fst (Database.logParsedMessage now messageId chatId contactId originalText d))
          = Sql.contacts d.
Proof.
  split; [|split].
  - apply on_message_keeps_log. intros. reflexivity.
  - apply on_message_keeps_log. intros. apply insert_or_ignore_keeps_log.
  - intros. split; reflexivity.
Qed.


(* ================================================================== *)
(** * The keys the message handler stores *)
(* ================================================================== *)

Section HandlerKeys.
Import Sql Bot.

Variable saveContact :
  N -> jsstring -> jsstring -> sqltext -> sqltext -> sqltext -> db -> db * N.
Variable guarded : bool.
Variable on_error : outcome.

Hypothesis save_adds_key : forall now p n nm co cx d c,
  In c (contacts (fst (saveContact now p n nm co cx d))) ->
  In c (contacts d) \/ normalized_phone c = n.

Lemma each_phone_keys (now : N) (text : jsstring) :
  forall phones responses d c,
    In c (contacts (fst (each_phone saveContact guarded now text phones responses d))) ->
    In c (contacts d)
    \/ exists ph, In ph phones /\ normalized_phone c = normalized ph.
Proof.
  induction phones as [|ph phones IH]; intros responses d c Hc; [left; exact Hc|].
  cbn [each_phone] in Hc.
  assert (Hlater : forall responses' d1,
    In c (contacts (fst (each_phone saveContact guarded now text phones responses' d1))) ->
    In c (contacts d1)
    \/ exists ph', In ph' (ph :: phones) /\ normalized_phone c = normalized ph').
  { intros responses' d1 H. destruct (IH _ _ _ H) as [Hd1|(ph' & Hin & Hk)];
      [left; exact Hd1|right; exists ph'; split; [right; exact Hin|exact Hk]]. }
  destruct (Store.findContactByPhone (normalized ph) d) as [c0|].
  - destruct (block guarded ph (Some c0)); [apply Hlater in Hc; exact Hc|left; exact Hc].
  - pose proof (save_adds_key now (original ph) (normalized ph) None None
                              (Some (substring_to 200 text)) d c) as Hs.
    destruct (saveContact now (original ph) (normalized ph) None None
                          (Some (substring_to 200 text)) d) as [d' contactId].
    cbn [fst] in Hs.
    assert (Hd' : In c (contacts d') ->
                  In c (contacts d)
                  \/ exists ph', In ph' (ph :: phones)
                                 /\ normalized_phone c = normalized ph').
    { intros H. destruct (Hs H) as [Hd|Hk]; [left; exact Hd|].
      right. exists ph. split; [left; reflexivity|exact Hk]. }
    destruct (block guarded ph (Store.findContactByPhone (normalized ph) d')).
    + apply Hlater in Hc. destruct Hc as [Hc|Hc]; [apply Hd'; exact Hc|right; exact Hc].
    + apply Hd'. exact Hc.
Qed.

Lemma on_message_keys (now : N) (m : message) (d : db) (c : contact) :
  In c (contacts (fst (on_message saveContact guarded on_error now m d))) ->
  In c (contacts d) \/ exists raw, normalized_phone c = normalizePhone raw.
Proof.
  unfold on_message.
  destruct (trim _); [left; assumption|].
  set (text := match msg_text m with Some t => t | None => [] end).
  destruct (parsePhoneNumbers text) as [|ph phones] eqn:Hparse; [left; assumption|].
  intros Hc.
  assert (Hin : In c (contacts (fst (each_phone saveContact guarded now text
                                                (ph :: phones) [] d)))).
  { destruct (each_phone _ _ _ _ _ _ _) as [d' [[|r responses]|]]; exact Hc. }
  apply each_phone_keys in Hin. destruct Hin as [Hd|(ph' & Hph & Hk)];
    [left; exact Hd|right].
  rewrite <- Hparse in Hph. unfold parsePhoneNumbers in Hph.
  apply in_map_iff in Hph. destruct Hph as (raw & Hraw & _).
  exists raw. rewrite Hk, <- Hraw. reflexivity.
Qed.

End HandlerKeys.

Lemma insert_or_ignore_adds_key (now : N) (p n : jsstring)
      (nm co cx : Sql.sqltext) (d : Sql.db) (c : Sql.contact) :
  In c (Sql.contacts (Sql.insert_or_ignore now p n nm co cx d)) ->
  In c (Sql.contacts d) \/ Sql.normalized_phone c = n.
Proof.
  unfold Sql.insert_or_ignore. destruct (existsb _ _); simpl; [auto|].
  intros H. apply in_app_or in H. destruct H as [H|[<-|[]]]; auto.
Qed.

Lemma insert_or_replace_adds_key (now : N) (p n : jsstring)
      (nm co cx : Sql.sqltext) (d : Sql.db) (c : Sql.contact) :
  In c (Sql.contacts (Sql.insert_or_replace now p n nm co cx d)) ->
  In c (Sql.contacts d) \/ Sql.normalized_phone c = n.
Proof.
  unfold Sql.insert_or_replace. simpl.
  intros H. apply in_app_or in H. destruct H as [H|[<-|[]]]; auto.
  apply filter_In in H. tauto.
Qed.

(** C10: every character of [normalizePhone raw] is a decimal digit or
    [+], and so neither whitespace nor a hyphen nor a parenthesis; the same
    holds of the normalized_phone of every contact the message handler (of
    either copy) adds to the store. *)
Theorem normalizePhone_alphabet (raw : jsstring) :
  Forall Spec.digit_or_plus (normalizePhone raw)
  /\ forall now m d,
       Forall (fun c => In c (Sql.contacts d)
                        \/ Forall Spec.digit_or_plus (Sql.normalized_phone c))
              (Sql.contacts (fst (ServerA.on_message now m d)))
       /\ Forall (fun c => In c (Sql.contacts d)
                           \/ Forall Spec.digit_or_plus (Sql.normalized_phone c))
                 (Sql.contacts (fst (ServerB.on_message now m d))).
Proof.
  assert (Hclean : forall r, Forall Spec.digit_or_plus (normalizePhone r)).
  { intros r. apply Forall_forall. intros c Hc.
    pose proof (normalizePhone_kept r) as Hk.
    rewrite forallb_forall in Hk. specialize (Hk c Hc).
    split; [|apply kept_not_punct; assumption].
    unfold Spec.keep in Hk. apply orb_prop in Hk.
    destruct Hk as [Hd|Hp]; [left; assumption|].
    right. unfold isPlus, chr_eqb in Hp. apply N.eqb_eq in Hp. assumption. }
  split; [apply Hclean|].
  assert (HA : forall now p n nm co cx d c,
    In c (Sql.contacts (fst (ServerA.saveContact now p n nm co cx d))) ->
    In c (Sql.contacts d) \/ Sql.normalized_phone c = n)
    by (intros *; apply insert_or_replace_adds_key).
  assert (HB : forall now p n nm co cx d c,
    In c (Sql.contacts (fst (ServerB.saveContact now p n nm co cx d))) ->
    In c (Sql.contacts d) \/ Sql.normalized_phone c = n)
    by (intros *; apply insert_or_ignore_adds_key).
  intros now m d. split; apply Forall_forall; intros c Hc.
  - destruct (@on_message_keys _ _ _ HA now m d c Hc) as [Hd|(r & Hr)];
      [left; exact Hd|right; rewrite Hr; apply Hclean].
  - destruct (@on_message_keys _ _ _ HB now m d c Hc) as [Hd|(r & Hr)];
      [left; exact Hd|right; rewrite Hr; apply Hclean].
Qed.

(* ================================================================== *)
(** * Further properties of normalizePhone *)
(* ================================================================== *)

(** X1: no result of [normalizePhone] starts with 8 or with 7: a leading
    8 has become +7 and a leading 7 has been given its +. *)
Theorem normalizePhone_never_bare_7_8 (raw : jsstring) :
  startsWith (normalizePhone raw) (js "8") = false
  /\ startsWith (normalizePhone raw) (js "7") = false.
Proof.
  rewrite normalizePhone_rules. unfold Spec.normalize_amended.
  set (s := Spec.strip_all raw).
  change (js "8") with [Chars.d8]. change (js "7") with [Chars.d7].
  rewrite !startsWith_one. unfold Spec.rules.
  destruct (Spec.starts Chars.d8 s) eqn:H8; [split; reflexivity|].
  destruct (Spec.starts Chars.d7 s) eqn:H7.
  - assert (Hp : startsWith s [Chars.plus; Chars.d7] = false).
    { destruct s as [|c s']; [discriminate|]. simpl in H7 |- *.
      unfold chr_eqb in *. apply N.eqb_eq in H7. subst c. reflexivity. }
    rewrite Hp. simpl. split; reflexivity.
  - cbn [andb].
    destruct (Spec.ten_digits s && Spec.starts Chars.d9 s); [split; reflexivity|].
    destruct (Spec.ten_digits s); [split; reflexivity|].
    split; assumption.
Qed.

(** X2: a character that is neither a digit nor [+], put anywhere into the
    input, does not change the normal form. *)
Theorem normalizePhone_ignores_formatting (a b : jsstring) (c : jschar) :
  isDigit c = false -> isPlus c = false ->
  normalizePhone (a ++ c :: b) = normalizePhone (a ++ b).
Proof.
  intros Hd Hp. rewrite !normalizePhone_rules.
  unfold Spec.normalize_amended, Spec.strip_all.
  rewrite !filter_app. cbn [filter]. unfold Spec.keep at 2.
  rewrite Hd, Hp. reflexivity.
Qed.

Lemma normalizePhone_ignores_formatting_witness :
  isDigit Chars.hyphen = false /\ isPlus Chars.hyphen = false
  /\ normalizePhone (js "8999" ++ Chars.hyphen :: js "1234567")
     = normalizePhone (js "8999" ++ js "1234567").
Proof.
  split; [reflexivity|]. split; [reflexivity|].
  apply (normalizePhone_ignores_formatting (js "8999") (js "1234567")); reflexivity.
Defined.

(** X3: for a national number [t] of digits, the spellings 8t, 7t and +7t
    all normalize to +7t; the bare ten digits do as well when they start
    with neither 7 nor 8. *)
Theorem normalizePhone_national_forms (t : jsstring) :
  forallb isDigit t = true ->
  normalizePhone (Chars.d8 :: t) = Chars.plus :: Chars.d7 :: t
  /\ normalizePhone (Chars.d7 :: t) = Chars.plus :: Chars.d7 :: t
  /\ normalizePhone (Chars.plus :: Chars.d7 :: t) = Chars.plus :: Chars.d7 :: t
  /\ (length t = 10 ->
      startsWith t (js "7") = false -> startsWith t (js "8") = false ->
      normalizePhone t = Chars.plus :: Chars.d7 :: t).
Proof.
  intros Hd.
  assert (Hk : filter Spec.keep t = t).
  { apply filter_keep_fixed. rewrite forallb_forall in *. intros c Hc.
    unfold Spec.keep. rewrite (Hd c Hc). reflexivity. }
  rewrite !normalizePhone_rules. unfold Spec.normalize_amended, Spec.strip_all.
  cbn [filter]. change (Spec.keep Chars.d8) with true.
  change (Spec.keep Chars.d7) with true. change (Spec.keep Chars.plus) with true.
  cbn iota. rewrite Hk.
  split; [reflexivity|]. split; [reflexivity|]. split; [apply rules_plus|].
  intros Hlen H7 H8.
  change (js "7") with [Chars.d7] in H7. change (js "8") with [Chars.d8] in H8.
  rewrite startsWith_one in H7, H8.
  unfold Spec.rules. rewrite H8, H7. cbn [andb].
  assert (H10 : Spec.ten_digits t = true).
  { unfold Spec.ten_digits. rewrite Hlen, Hd. reflexivity. }
  rewrite H10. destruct (Spec.starts Chars.d9 t); reflexivity.
Qed.

Lemma normalizePhone_national_forms_witness :
  forallb isDigit (js "9991234567") = true
  /\ normalizePhone (Chars.d8 :: js "9991234567") = js "+79991234567"
  /\ normalizePhone (js "9991234567") = js "+79991234567".
Proof.
  split; [reflexivity|].
  destruct (normalizePhone_national_forms (js "9991234567") eq_refl)
    as (H8 & _ & _ & Hbare).
  split; [exact H8|]. apply Hbare; reflexivity.
Defined.

(* ================================================================== *)
(** * Further properties of the extractor *)
(* ================================================================== *)

Section ExtractMore.
Import Regex Spec.

Variable cls : jschar -> bool.

(** A quantifier that fails has no number of characters after which the
    continuation would have succeeded. *)
Lemma quant_none (k : cont) : forall s min pos,
  quant cls min None pos s k = None ->
  forall n, min <= n -> n <= length s ->
            forallb cls (firstn n s) = true ->
            k (pos + n) (skipn n s) = None.
Proof.
  induction s as [|c s IH]; intros min pos H n Hmin Hlen Hall.
  - simpl in Hlen. assert (n = 0) by lia. subst n.
    assert (min = 0) by lia. subst min.
    simpl in H. rewrite Nat.add_0_r. exact H.
  - simpl in H. destruct n as [|n].
    + assert (min = 0) by lia. subst min. rewrite Nat.add_0_r. simpl.
      destruct (cls c && true); [|exact H].
      destruct (quant cls (pred 0) None (S pos) s k); [discriminate|exact H].
    + simpl in Hall. apply andb_prop in Hall. destruct Hall as [Hc Hall].
      rewrite Hc in H. simpl in H.
      destruct (quant cls (pred min) None (S pos) s k) eqn:Hq; [discriminate|].
      replace (pos + S n) with (S pos + n) by lia.
      apply (IH _ _ Hq); [lia|simpl in Hlen; lia|exact Hall].
Qed.

(** A greedy quantifier stops at the longest run that lets the rest of the
    pattern succeed. *)
Lemma quant_longest (k : cont) : forall s min pos e,
  quant cls min None pos s k = Some e ->
  exists n, min <= n /\ n <= length s
            /\ forallb cls (firstn n s) = true
            /\ k (pos + n) (skipn n s) = Some e
            /\ forall n', n < n' -> n' <= length s ->
                           forallb cls (firstn n' s) = true ->
                           k (pos + n') (skipn n' s) = None.
Proof.
  assert (Hstop : forall (s : jsstring) (min pos e : nat),
    (if Nat.eqb min 0 then k pos s else None) = Some e ->
    (forall n', 0 < n' -> n' <= length s ->
                forallb cls (firstn n' s) = true ->
                k (pos + n') (skipn n' s) = None) ->
    exists n, min <= n /\ n <= length s
              /\ forallb cls (firstn n s) = true
              /\ k (pos + n) (skipn n s) = Some e
              /\ forall n', n < n' -> n' <= length s ->
                             forallb cls (firstn n' s) = true ->
                             k (pos + n') (skipn n' s) = None).
  { intros s min pos e H Hmax. destruct (Nat.eqb_spec min 0); [|discriminate].
    exists 0. rewrite Nat.add_0_r. simpl. repeat split; auto; lia. }
  induction s as [|c s IH]; intros min pos e H.
  - apply Hstop; [exact H|]. intros n' Hpos Hlen. simpl in Hlen. lia.
  - simpl in H. destruct (cls c) eqn:Hc; simpl in H.
    + destruct (quant cls (pred min) None (S pos) s k) eqn:Hq.
      * injection H as He. subst n.
        destruct (IH _ _ _ Hq) as (n & Hmin & Hlen & Hall & Hk & Hmax).
        exists (S n). simpl. rewrite Hc, Hall.
        replace (pos + S n) with (S pos + n) by lia.
        repeat split; auto; try lia.
        intros [|n'] Hlt Hle Hall'; [lia|].
        simpl in Hall'. rewrite Hc in Hall'. simpl in Hall', Hle.
        replace (pos + S n') with (S pos + n') by lia.
        apply Hmax; [lia|lia|exact Hall'].
      * apply Hstop; [exact H|].
        intros [|n'] Hpos Hle Hall'; [lia|].
        simpl in Hall'. rewrite Hc in Hall'. simpl in Hall', Hle.
        replace (pos + S n') with (S pos + n') by lia. cbn [skipn].
        assert (min = 0) by (destruct (Nat.eqb_spec min 0); [assumption|discriminate]).
        subst min. eapply quant_none; [exact Hq|simpl; lia|lia|exact Hall'].
    + apply Hstop; [exact H|].
      intros [|n'] Hpos Hle Hall'; [lia|].
      simpl in Hall'. rewrite Hc in Hall'. discriminate.
Qed.

End ExtractMore.

Section ExtractTiles.
Import Regex Spec Inv.

(** The phone pattern never stops before a digit. *)
Lemma body_not_cut (pos : nat) (s : jsstring) (e : nat) :
  rmatch (Seq (Chr isDigit) (Seq (Quant phoneBody 7 None) (Chr isDigit)))
         pos s accept = Some e ->
  hd_error (map isDigit (skipn (e - pos) s)) <> Some true.
Proof.
  simpl. destruct s as [|d1 s1]; [discriminate|].
  destruct (isDigit d1); [|discriminate].
  intros H. apply quant_longest in H.
  destruct H as (n & _ & Hlen & Hall & Hk & Hmax).
  destruct (skipn n s1) as [|d2 rest] eqn:Hrest; [discriminate|].
  destruct (isDigit d2) eqn:Hd2; [|discriminate].
  unfold accept in Hk. injection Hk as He. subst e.
  replace (S (S (pos + n)) - pos) with (S (S n)) by lia.
  change (skipn (S (S n)) (d1 :: s1)) with (skipn (S n) s1).
  assert (Hskip : skipn (S n) s1 = rest).
  { replace (S n) with (1 + n) by lia. rewrite <- skipn_skipn, Hrest. reflexivity. }
  rewrite Hskip. destruct rest as [|d3 r]; [discriminate|].
  simpl. intros Hd3. injection Hd3 as Hd3.
  assert (Hlen' : S n <= length s1).
  { apply (f_equal (@length _)) in Hrest. rewrite length_skipn in Hrest.
    simpl in Hrest. lia. }
  assert (Hall' : forallb phoneBody (firstn (S n) s1) = true).
  { rewrite <- (firstn_skipn n s1) at 1. rewrite Hrest.
    rewrite firstn_app, length_firstn.
    replace (Nat.min n (length s1)) with n by lia.
    replace (S n - n) with 1 by lia.
    rewrite firstn_firstn. replace (Nat.min (S n) n) with n by lia.
    rewrite forallb_app, Hall. simpl.
    unfold phoneBody. rewrite Hd2. reflexivity. }
  specialize (Hmax (S n) (Nat.lt_succ_diag_r n) Hlen' Hall').
  rewrite Hskip, Hd3 in Hmax. discriminate.
Qed.

Lemma phoneRegex_not_cut (pos : nat) (s : jsstring) (e : nat) :
  exec_at phoneRegex pos s = Some e ->
  hd_error (map isDigit (skipn (e - pos) s)) <> Some true.
Proof.
  unfold exec_at, phoneRegex. intros H.
  apply alt_cases in H. destruct H as [H|H]; [|apply body_not_cut; exact H].
  change (quant isPlus 0 (Some 1) pos s
            (fun p' s' =>
               rmatch (Seq (Chr isDigit)
                           (Seq (Quant phoneBody 7 None) (Chr isDigit)))
                      p' s' accept) = Some e) in H.
  apply quant_sound in H. destruct H as (n & _ & _ & Hlen & _ & Hk).
  pose proof (body_not_cut _ _ Hk) as Hcut.
  pose proof (body_shape _ _ Hk) as (d1 & i & d2 & r & _ & _ & _ & _ & _ & He).
  rewrite skipn_skipn in Hcut.
  replace (e - pos) with (e - (pos + n) + n) by lia. exact Hcut.
Qed.

Lemma scans_tiles : forall pos s ms,
  scans phoneRegex pos s ms -> tiles s ms.
Proof.
  induction 1 as [|pos pre m rest ms Hpre Hm Hne Hrest IH]; [constructor|].
  constructor; [|exact IH].
  apply phoneRegex_not_cut in Hm.
  replace (pos + length pre + length m - (pos + length pre)) with (length m) in Hm
    by lia.
  rewrite skipn_app, skipn_all, Nat.sub_diag in Hm. exact Hm.
Qed.

Lemma scans_total_length (r : regex) : forall pos s ms,
  scans r pos s ms -> list_sum (map (@length jschar) ms) <= length s.
Proof.
  induction 1; simpl; [lia|]. rewrite !length_app. lia.
Qed.

Lemma scans_occur (r : regex) : forall pos s ms,
  scans r pos s ms ->
  Forall (fun m => exists pre rest, s = pre ++ m ++ rest) ms.
Proof.
  induction 1 as [|pos pre m rest ms Hpre Hm Hne Hrest IH]; constructor.
  - exists pre, rest. reflexivity.
  - eapply Forall_impl; [|exact IH]. cbv beta.
    intros m' (pre' & rest' & ->). exists (pre ++ m ++ pre'), rest'.
    rewrite <- !app_assoc. reflexivity.
Qed.

(** A text without a digit holds no phone. *)
Lemma no_digit_no_entry (text : jsstring) :
  forallb (fun c => negb (isDigit c)) text = true -> parsePhoneNumbers text = [].
Proof.
  intros Hnone. unfold parsePhoneNumbers.
  pose proof (scans_occur (phone_matches_scanned text)) as Hocc.
  pose proof (phone_matches_shaped text) as Hshape.
  destruct (match_all phoneRegex text) as [|m ms]; [reflexivity|].
  apply Forall_inv in Hocc. apply Forall_inv in Hshape.
  destruct Hocc as (pre & rest & Htext).
  destruct Hshape as (sign & d1 & i & d2 & Hm & _ & Hd1 & _).
  rewrite forallb_forall in Hnone.
  assert (Hin : In d1 text).
  { rewrite Htext, Hm. apply in_or_app. right. apply in_or_app. left.
    apply in_or_app. right. left. reflexivity. }
  apply Hnone in Hin. rewrite Hd1 in Hin. discriminate.
Qed.

Lemma trim_nil_blank : forall s, trim s = [] -> forallb isSpace s = true.
Proof.
  assert (Hdrop : forall s, dropWhile isSpace s = [] -> forallb isSpace s = true).
  { induction s as [|c s IH]; simpl; [reflexivity|].
    destruct (isSpace c); [exact IH|discriminate]. }
  assert (Hkeep : forall s, forallb isSpace s = false ->
                            hd_error (map isSpace (dropWhile isSpace s)) = Some false).
  { induction s as [|c s IH]; simpl; [discriminate|].
    destruct (isSpace c) eqn:Hc; [exact IH|]. intros _. simpl. rewrite Hc. reflexivity. }
  intros s H. unfold trim in H.
  destruct (forallb isSpace s) eqn:Hall; [reflexivity|].
  apply (f_equal (@rev _)) in H. rewrite rev_involutive in H. simpl in H.
  apply Hdrop in H. rewrite forallb_forall in H.
  pose proof (Hkeep s Hall) as Hhd.
  destruct (dropWhile isSpace s) as [|c s'] eqn:Hs; [discriminate|].
  simpl in Hhd. injection Hhd as Hc.
  rewrite (H c) in Hc; [discriminate|]. apply in_rev. rewrite rev_involutive.
  left. reflexivity.
Qed.

(** A blank text holds no phone. *)
Lemma blank_no_entry (text : jsstring) :
  trim text = [] -> parsePhoneNumbers text = [].
Proof.
  intros H. apply no_digit_no_entry. apply trim_nil_blank in H.
  rewrite forallb_forall in *. intros c Hc. specialize (H c Hc).
  destruct (isDigit c) eqn:Hd; [|reflexivity].
  rewrite (digit_not_space _ Hd) in H. discriminate.
Qed.

End ExtractTiles.

(** X4: every extracted phone takes at least nine characters of the text
    and the phones do not overlap: nine times their number is at most the
    length of the text. *)
Theorem parsePhoneNumbers_count (text : jsstring) :
  9 * length (parsePhoneNumbers text) <= length text.
Proof.
  unfold parsePhoneNumbers. rewrite length_map.
  pose proof (phone_matches_shaped text) as Hshape.
  assert (H : 9 * length (Regex.match_all phoneRegex text)
              <= list_sum (map (@length jschar) (Regex.match_all phoneRegex text))).
  { induction Hshape as [|m ms Hm _ IH]; [simpl; lia|].
    apply phone_shaped_length in Hm.
    change (list_sum (map (@length jschar) (m :: ms)))
      with (length m + list_sum (map (@length jschar) ms)).
    cbn [length]. lia. }
  pose proof (scans_total_length (phone_matches_scanned text)) as Hsum.
  lia.
Qed.

(** X5: the extracted originals lie in the text one after the other, and
    none is directly followed by a digit: a run of digits is never cut. *)
Theorem parsePhoneNumbers_not_cut (text : jsstring) :
  Inv.tiles text (map original (parsePhoneNumbers text)).
Proof.
  assert (Horig : map original (parsePhoneNumbers text)
                  = Regex.match_all phoneRegex text).
  { unfold parsePhoneNumbers. rewrite map_map. cbn [original].
    pose proof (phone_matches_shaped text) as H.
    induction H as [|m ms Hm _ IH]; simpl; [reflexivity|].
    rewrite (phone_shaped_trim Hm), IH. reflexivity. }
  rewrite Horig. eapply scans_tiles. apply phone_matches_scanned.
Qed.

(* ================================================================== *)
(** * Saving, then looking up *)
(* ================================================================== *)

Section SaveLookup.
Import Sql Spec Inv.

Lemma str_eqb_neq (a b : jsstring) : str_eqb a b = false <-> a <> b.
Proof.
  split.
  - intros H Heq. apply str_eqb_eq in Heq. congruence.
  - intros H. destruct (str_eqb a b) eqn:E; [|reflexivity].
    apply str_eqb_eq in E. contradiction.
Qed.

Lemma fresh_rows (p n : jsstring) (rows : list contact) :
  existsb (collides p n) rows = false <->
  Forall (fun c => phone c <> p /\ normalized_phone c <> n) rows.
Proof.
  induction rows as [|c rows IH]; simpl.
  - split; [constructor|reflexivity].
  - rewrite orb_false_iff, IH. unfold collides. rewrite orb_false_iff, !str_eqb_neq.
    split.
    + intros [Hc Hrows]. constructor; assumption.
    + intros H. inversion H; subst. split; assumption.
Qed.

Lemma kept_rows_fresh (p n : jsstring) (rows : list contact) :
  existsb (collides p n) (filter (fun c => negb (collides p n c)) rows) = false.
Proof.
  induction rows as [|c rows IH]; simpl; [reflexivity|].
  destruct (collides p n c) eqn:Hc; simpl; [exact IH|].
  rewrite Hc, IH. reflexivity.
Qed.

Lemma fresh_filter_same (p n : jsstring) (rows : list contact) :
  existsb (collides p n) rows = false ->
  filter (fun c => negb (collides p n c)) rows = rows.
Proof.
  induction rows as [|c rows IH]; simpl; [reflexivity|].
  intros H. apply orb_false_elim in H. destruct H as [Hc Hrows].
  rewrite Hc. simpl. rewrite IH by assumption. reflexivity.
Qed.

(** On a store that holds neither the phone nor the key, replacing is
    inserting. *)
Lemma replace_fresh (now : N) (p n : jsstring) (nm co cx : sqltext) (d : db) :
  existsb (collides p n) (contacts d) = false ->
  insert_or_replace now p n nm co cx d
  = append_contact (new_contact now p n nm co cx d) d.
Proof.
  intros H. unfold insert_or_replace. rewrite fresh_filter_same by assumption.
  rewrite set_contacts_same. reflexivity.
Qed.

Lemma ignore_fresh (now : N) (p n : jsstring) (nm co cx : sqltext) (d : db) :
  existsb (collides p n) (contacts d) = false ->
  insert_or_ignore now p n nm co cx d
  = append_contact (new_contact now p n nm co cx d) d.
Proof. intros H. unfold insert_or_ignore. rewrite H. reflexivity. Qed.

Lemma find_last (A : Type) (f : A -> bool) (l : list A) (x : A) :
  find f l = None -> f x = true -> find f (l ++ [x]) = Some x.
Proof.
  induction l as [|y l IH]; simpl; intros Hl Hx.
  - rewrite Hx. reflexivity.
  - destruct (f y); [discriminate|]. apply IH; assumption.
Qed.

Lemma find_kept (A : Type) (f : A -> bool) (l more : list A) (x : A) :
  find f l = Some x -> find f (l ++ more) = Some x.
Proof.
  induction l as [|y l IH]; simpl; [discriminate|].
  destruct (f y); [auto|exact IH].
Qed.

Lemma find_none_forall (A : Type) (f : A -> bool) (l : list A) :
  find f l = None <-> Forall (fun x => f x = false) l.
Proof.
  induction l as [|y l IH]; simpl.
  - split; [constructor|reflexivity].
  - destruct (f y) eqn:Hy.
    + split; [discriminate|]. intros H. inversion H; subst. congruence.
    + rewrite IH. split; [constructor; assumption|].
      intros H. inversion H; assumption.
Qed.

Lemma fresh_no_key (p n : jsstring) (rows : list contact) :
  existsb (collides p n) rows = false ->
  find (fun c => str_eqb (normalized_phone c) n) rows = None.
Proof.
  intros H. apply find_none_forall. apply fresh_rows in H.
  eapply Forall_impl; [|exact H]. cbv beta. intros c [_ Hn].
  apply str_eqb_neq. exact Hn.
Qed.

Lemma find_new_contact (now : N) (p n : jsstring) (nm co cx : sqltext) (d : db) :
  existsb (collides p n) (contacts d) = false ->
  Store.findContactByPhone n (append_contact (new_contact now p n nm co cx d) d)
  = Some (new_contact now p n nm co cx d).
Proof.
  intros H. unfold Store.findContactByPhone, select_by_normalized.
  cbn [contacts append_contact].
  apply find_last; [apply fresh_no_key with (p := p); exact H|].
  cbn [normalized_phone new_contact]. apply str_eqb_refl.
Qed.

Lemma ids_below_no_next (seq : N) (rows : list contact) :
  Forall (fun c => (id c <= seq)%N) rows ->
  find (id_is (IdInt (seq + 1))) rows = None.
Proof.
  intros H. apply find_none_forall. eapply Forall_impl; [|exact H].
  cbv beta. intros c Hc. simpl. apply N.eqb_neq. lia.
Qed.

Lemma find_new_id (now : N) (p n : jsstring) (nm co cx : sqltext) (d : db) :
  Forall (fun c => (id c <= contacts_seq d)%N) (contacts d) ->
  StoreQueries.getContactById
    (IdInt (lastID (append_contact (new_contact now p n nm co cx d) d)))
    (append_contact (new_contact now p n nm co cx d) d)
  = Some (new_contact now p n nm co cx d).
Proof.
  intros H. unfold StoreQueries.getContactById.
  cbn [contacts append_contact lastID new_contact id].
  apply find_last; [apply ids_below_no_next; exact H|].
  simpl. apply N.eqb_refl.
Qed.

End SaveLookup.

(** X6: a contact saved under a phone and a key the store does not hold,
    all its text being well-formed UTF-16 (which the store, holding UTF-8,
    reads back as written), is what [findContactByPhone] returns for the
    key afterwards, with the saved original, name, company and context and
    both timestamps at the time of the save; in all three copies. *)
Theorem saveContact_then_find (now : N) (p n : jsstring)
        (nm co cx : Sql.sqltext) (d : Sql.db) :
  Spec.well_formed_row (Sql.new_contact now p n nm co cx d) = true ->
  existsb (Sql.collides p n) (Sql.contacts d) = false ->
  Store.findContactByPhone n (fst (Database.saveContact now p n nm co cx d))
  = Some (Sql.new_contact now p n nm co cx d)
  /\ Store.findContactByPhone n (fst (ServerB.saveContact now p n nm co cx d))
     = Some (Sql.new_contact now p n nm co cx d)
  /\ Store.findContactByPhone n (fst (ServerA.saveContact now p n nm co cx d))
     = Some (Sql.new_contact now p n nm co cx d).
Proof.
  intros _ H. unfold Database.saveContact, ServerB.saveContact, ServerA.saveContact.
  cbn [fst]. rewrite ignore_fresh, replace_fresh by assumption.
  pose proof (find_new_contact now p n nm co cx d H) as Hf. auto.
Qed.

Lemma saveContact_then_find_witness :
  Spec.well_formed_row
    (Sql.new_contact 3 Samples.raw_8 Samples.canonical Samples.ann None None
                     Sql.empty_db) = true
  /\ existsb (Sql.collides Samples.raw_8 Samples.canonical)
             (Sql.contacts Sql.empty_db) = false
  /\ Store.findContactByPhone Samples.canonical
       (fst (Database.saveContact 3 Samples.raw_8 Samples.canonical
               Samples.ann None None Sql.empty_db))
     = Some (Sql.new_contact 3 Samples.raw_8 Samples.canonical
               Samples.ann None None Sql.empty_db).
Proof.
  split; [reflexivity|]. split; [reflexivity|].
  apply (saveContact_then_find 3 Samples.raw_8 Samples.canonical
           Samples.ann None None Sql.empty_db); reflexivity.
Defined.

(** X7: in a table within its AUTOINCREMENT counter, the id the first
    copy's [saveContact] resolves to always identifies the row now stored
    under the key. The insert-or-ignore [saveContact] does so when it
    inserts; when the phone or the key is already stored it changes no
    contact and resolves to the connection's previous last inserted rowid,
    whatever row that was. *)
Theorem saveContact_returned_id (now : N) (p n : jsstring)
        (nm co cx : Sql.sqltext) (d : Sql.db) :
  Forall (fun c => (Sql.id c <= Sql.contacts_seq d)%N) (Sql.contacts d) ->
  (let r := ServerA.saveContact now p n nm co cx d in
   StoreQueries.getContactById (Sql.IdInt (snd r)) (fst r)
   = Store.findContactByPhone n (fst r)
   /\ exists c, Store.findContactByPhone n (fst r) = Some c
                /\ Sql.id c = (Sql.contacts_seq d + 1)%N /\ Sql.phone c = p)
  /\ (let r := Database.saveContact now p n nm co cx d in
      if existsb (Sql.collides p n) (Sql.contacts d)
      then Sql.contacts (fst r) = Sql.contacts d /\ snd r = Sql.lastID d
      else StoreQueries.getContactById (Sql.IdInt (snd r)) (fst r)
           = Some (Sql.new_contact now p n nm co cx d)).
Proof.
  intros Hseq. split.
  - cbv zeta. unfold ServerA.saveContact. cbn [fst snd].
    unfold Sql.insert_or_replace.
    set (d' := Sql.set_contacts _ d).
    assert (Hfresh : existsb (Sql.collides p n) (Sql.contacts d') = false)
      by apply kept_rows_fresh.
    assert (Hseq' : Forall (fun c => (Sql.id c <= Sql.contacts_seq d')%N)
                           (Sql.contacts d')).
    { apply Forall_forall. intros c Hc. simpl in Hc. apply filter_In in Hc.
      rewrite Forall_forall in Hseq. apply Hseq. tauto. }
    rewrite (find_new_id now p n nm co cx d' Hseq').
    rewrite (find_new_contact now p n nm co cx d' Hfresh).
    split; [reflexivity|]. eexists. split; [reflexivity|]. split; reflexivity.
  - cbv zeta. unfold Database.saveContact. cbn [fst snd].
    unfold Sql.insert_or_ignore.
    destruct (existsb (Sql.collides p n) (Sql.contacts d)) eqn:Hc.
    + split; reflexivity.
    + apply find_new_id. exact Hseq.
Qed.

Lemma saveContact_returned_id_witness :
  Forall (fun c => (Sql.id c <= Sql.contacts_seq Samples.one_contact)%N)
         (Sql.contacts Samples.one_contact)
  /\ StoreQueries.getContactById
       (Sql.IdInt (snd (ServerA.saveContact 4 Samples.raw_8 Samples.canonical
                          Samples.ann None None Samples.one_contact)))
       (fst (ServerA.saveContact 4 Samples.raw_8 Samples.canonical
               Samples.ann None None Samples.one_contact))
     = Store.findContactByPhone Samples.canonical
         (fst (ServerA.saveContact 4 Samples.raw_8 Samples.canonical
                 Samples.ann None None Samples.one_contact)).
Proof.
  assert (H : Forall (fun c => (Sql.id c <= Sql.contacts_seq Samples.one_contact)%N)
                     (Sql.contacts Samples.one_contact)).
  { repeat constructor. simpl. lia. }
  split; [exact H|].
  apply (saveContact_returned_id 4 Samples.raw_8 Samples.canonical
           Samples.ann None None Samples.one_contact H).
Defined.

(* ================================================================== *)
(** * The PUT endpoint on any body, and reading back *)
(* ================================================================== *)

Section PutFacts.
Import Sql Http Spec Inv.

Lemma assign_body (now : N) (b : put_body) (r : contact) :
  exists r', assign_all r (build_updates b) = Some r'
             /\ touch now r' = apply_body now b r.
Proof.
  destruct b as [[nm|] [co|] [cx|]]; eexists; split; reflexivity.
Qed.

Lemma update_rows_body (now : N) (p : idparam) (b : put_body) (all : list contact) :
  forall rows,
    update_rows now p (build_updates b) all rows
    = Ok (map (fun r => if id_is p r then apply_body now b r else r) rows,
          length (filter (id_is p) rows)).
Proof.
  induction rows as [|c rows IH]; [reflexivity|].
  cbn [update_rows]. rewrite IH. cbn [map filter].
  destruct (id_is p c); [|reflexivity].
  destruct (assign_body now b c) as (c' & Hc' & Ht).
  rewrite Hc', (mutable_keeps_unique (build_updates b) c' all
                  (build_updates_mutable b)), Ht.
  reflexivity.
Qed.



Lemma put_contact_rows (now : N) (p : idparam) (b : put_body) (d : db) :
  contacts (fst (ServerA.put_contact now p b d))
  = map (fun r => if id_is p r then apply_body now b r else r) (contacts d)
  /\ contacts (fst (ServerB.put_contact now p b d))
     = map (fun r => if id_is p r then apply_body now b r else r) (contacts d).
Proof.
  unfold ServerA.put_contact, ServerB.put_contact, Store.updateContact,
    update_where_id.
  rewrite update_rows_body.
  destruct (0 <? _); split; reflexivity.
Qed.

End PutFacts.



(* ================================================================== *)
(** * The table constraints *)
(* ================================================================== *)

Section Constraints.
Import Sql Spec Inv.

Lemma NoDup_snoc (A : Type) (l : list A) (x : A) :
  NoDup l -> ~ In x l -> NoDup (l ++ [x]).
Proof.
  intros Hl Hx. eapply Permutation_NoDup; [apply Permutation_cons_append|].
  constructor; assumption.
Qed.

(** Deleting rows keeps a column free of duplicates. *)
Lemma kept_rows_distinct (K : Type) (column : contact -> K)
      (kept : contact -> bool) (rows : list contact) :
  NoDup (map column rows) -> NoDup (map column (filter kept rows)).
Proof.
  induction rows as [|c rows IH]; cbn [map filter]; [auto|].
  intros H. apply NoDup_cons_iff in H. destruct H as [Hc Hrows].
  destruct (kept c); [|auto]. cbn [map]. constructor; [|auto].
  intros Hin. apply Hc. apply in_map_iff in Hin.
  destruct Hin as (r & Hr & Hin). apply filter_In in Hin.
  apply in_map_iff. exists r. tauto.
Qed.

Lemma constrained_append (now : N) (p n : jsstring) (nm co cx : sqltext) (d : db) :
  constrained d ->
  existsb (collides p n) (contacts d) = false ->
  constrained (append_contact (new_contact now p n nm co cx d) d).
Proof.
  intros (Hid & Hph & Hkey & Hseq) Hfresh. apply fresh_rows in Hfresh.
  rewrite Forall_forall in Hfresh, Hseq.
  unfold constrained. cbn [contacts append_contact contacts_seq new_contact id].
  rewrite !map_app. cbn [map new_contact id phone normalized_phone].
  repeat split.
  - apply NoDup_snoc; [exact Hid|]. intros Hin. apply in_map_iff in Hin.
    destruct Hin as (c & Hc & Hin). apply Hseq in Hin. lia.
  - apply NoDup_snoc; [exact Hph|]. intros Hin. apply in_map_iff in Hin.
    destruct Hin as (c & Hc & Hin). apply Hfresh in Hin. tauto.
  - apply NoDup_snoc; [exact Hkey|]. intros Hin. apply in_map_iff in Hin.
    destruct Hin as (c & Hc & Hin). apply Hfresh in Hin. tauto.
  - apply Forall_app. split.
    + apply Forall_forall. intros c Hc. apply Hseq in Hc. lia.
    + constructor; [simpl; lia|constructor].
Qed.

Lemma constrained_ignore (now : N) (p n : jsstring) (nm co cx : sqltext) (d : db) :
  constrained d -> constrained (insert_or_ignore now p n nm co cx d).
Proof.
  intros H. unfold insert_or_ignore.
  destruct (existsb (collides p n) (contacts d)) eqn:Hc.
  - destruct H as (Hid & Hph & Hkey & Hseq). repeat split; try assumption.
    simpl. eapply Forall_impl; [|exact Hseq]. cbv beta. intros c Hle. lia.
  - apply constrained_append; assumption.
Qed.

Lemma constrained_replace (now : N) (p n : jsstring) (nm co cx : sqltext) (d : db) :
  constrained d -> constrained (insert_or_replace now p n nm co cx d).
Proof.
  intros (Hid & Hph & Hkey & Hseq). unfold insert_or_replace.
  apply constrained_append; [|apply kept_rows_fresh].
  unfold constrained. cbn [contacts set_contacts contacts_seq].
  repeat split; try (apply kept_rows_distinct; assumption).
  apply Forall_forall. intros c Hc. apply filter_In in Hc.
  rewrite Forall_forall in Hseq. apply Hseq. tauto.
Qed.

Lemma constrained_same_fixed (d d' : db) :
  map fixed_part (contacts d') = map fixed_part (contacts d) ->
  contacts_seq d' = contacts_seq d ->
  constrained d -> constrained d'.
Proof.
  intros Hfix Hs (Hid & Hph & Hkey & Hseq).
  assert (Hi : map id (contacts d') = map id (contacts d)).
  { transitivity (map (fun t : N * jsstring * jsstring * N => fst (fst (fst t)))
                        (map fixed_part (contacts d')));
      [rewrite map_map; reflexivity|rewrite Hfix, map_map; reflexivity]. }
  assert (Hp : map phone (contacts d') = map phone (contacts d)).
  { transitivity (map (fun t : N * jsstring * jsstring * N => snd (fst (fst t)))
                        (map fixed_part (contacts d')));
      [rewrite map_map; reflexivity|rewrite Hfix, map_map; reflexivity]. }
  assert (Hk : map normalized_phone (contacts d') = map normalized_phone (contacts d)).
  { transitivity (map (fun t : N * jsstring * jsstring * N => snd (fst t))
                        (map fixed_part (contacts d')));
      [rewrite map_map; reflexivity|rewrite Hfix, map_map; reflexivity]. }
  unfold constrained. rewrite Hi, Hp, Hk, Hs. repeat split; try assumption.
  apply (Forall_map id (fun i => (i <= contacts_seq d)%N)).
  rewrite Hi. apply Forall_map. exact Hseq.
Qed.

Lemma put_keeps_seq (now : N) (p : idparam) (b : Http.put_body) (d : db) :
  contacts_seq (fst (ServerA.put_contact now p b d)) = contacts_seq d
  /\ contacts_seq (fst (ServerB.put_contact now p b d)) = contacts_seq d.
Proof.
  unfold ServerA.put_contact, ServerB.put_contact, Store.updateContact,
    update_where_id.
  rewrite update_rows_body. destruct (0 <? _); split; reflexivity.
Qed.

End Constraints.

(** X10: the table constraints (no two rows share an id, a phone or a
    normalized_phone, and no id lies beyond the AUTOINCREMENT counter) hold
    after [saveContact] of each copy and after the PUT handler of each copy
    whenever they held before. *)
Theorem constraints_kept (now : N) (p n : jsstring) (nm co cx : Sql.sqltext)
        (i : Sql.idparam) (b : Http.put_body) (d : Sql.db) :
  Inv.constrained d ->
  Inv.constrained (fst (Database.saveContact now p n nm co cx d))
  /\ Inv.constrained (fst (ServerA.saveContact now p n nm co cx d))
  /\ Inv.constrained (fst (ServerB.saveContact now p n nm co cx d))
  /\ Inv.constrained (fst (ServerA.put_contact now i b d))
  /\ Inv.constrained (fst (ServerB.put_contact now i b d)).
Proof.
  intros H.
  split; [apply constrained_ignore; exact H|].
  split; [apply constrained_replace; exact H|].
  split; [apply constrained_ignore; exact H|].
  split; (eapply constrained_same_fixed; [| |exact H]);
    try apply put_contact_fixed_part; apply put_keeps_seq.
Qed.

Lemma constraints_kept_witness :
  Inv.constrained Samples.two_contacts
  /\ Inv.constrained
       (fst (ServerA.saveContact 9 Samples.raw_8 Samples.canonical
               Samples.bob None None Samples.two_contacts)).
Proof.
  assert (H : Inv.constrained Samples.two_contacts).
  { unfold Inv.constrained. simpl.
    repeat split; repeat constructor; simpl;
      try (intros [E|E]; [discriminate E|exact E]); try (intros E; exact E);
      try lia. }
  split; [exact H|].
  apply (constraints_kept 9 Samples.raw_8 Samples.canonical Samples.bob None None
           (Sql.IdInt 1) (Http.body_with_name None) H).
Defined.

(* ================================================================== *)
(** * Listing, searching everything, counting *)
(* ================================================================== *)

Section ListFacts.
Import Sql Spec StoreQueries.

Lemma like_from_percents : forall pat str,
  pat <> [] -> forallb (chr_eqb Chars.percent) pat = true ->
  like_from pat str = true.
Proof.
  induction pat as [|p pat IH]; intros str Hne Hall; [congruence|].
  cbn [forallb] in Hall. apply andb_prop in Hall. destruct Hall as [Hp Hall].
  unfold chr_eqb in Hp. apply N.eqb_eq in Hp. subst p.
  destruct pat as [|q pat]; [apply like_from_any|].
  rewrite like_from_percent, IH by (congruence || assumption). reflexivity.
Qed.

Lemma c_string_percents (pat : jsstring) :
  forallb (chr_eqb Chars.percent) pat = true -> c_string pat = pat.
Proof.
  intros Hall. apply c_string_nul_free. unfold nul_free.
  induction pat as [|p pat IH]; [reflexivity|].
  cbn [forallb] in *. apply andb_prop in Hall. destruct Hall as [Hp Hall].
  unfold chr_eqb in Hp. apply N.eqb_eq in Hp. subst p.
  rewrite IH by exact Hall. reflexivity.
Qed.

Lemma like_percents (pat str : jsstring) :
  pat <> [] -> forallb (chr_eqb Chars.percent) pat = true -> like pat str = true.
Proof.
  intros Hne Hall. unfold like. rewrite c_string_percents by exact Hall.
  apply like_from_percents; assumption.
Qed.

Lemma filter_all (A : Type) (f : A -> bool) (l : list A) :
  (forall x, In x l -> f x = true) -> filter f l = l.
Proof.
  induction l as [|x l IH]; simpl; intros H; [reflexivity|].
  rewrite (H x) by (left; reflexivity). rewrite IH; [reflexivity|].
  intros y Hy. apply H. right. exact Hy.
Qed.

End ListFacts.



(** X12: a query that is empty or made of [%] signs only returns every
    contact of the store. *)
Theorem searchContacts_everything (q : jsstring) (d : Sql.db) :
  forallb (chr_eqb Chars.percent) q = true ->
  Permutation (Store.searchContacts q d) (Sql.contacts d).
Proof.
  intros Hq. destruct (searchContacts_rows q d) as [Hperm _].
  rewrite Hperm. rewrite filter_all; [reflexivity|].
  intros c _. unfold Sql.row_like.
  rewrite like_percents; [reflexivity|discriminate|].
  change (js "%" ++ q ++ js "%") with (Chars.percent :: q ++ [Chars.percent]).
  cbn [forallb]. rewrite forallb_app, Hq. reflexivity.
Qed.

Lemma searchContacts_everything_witness :
  forallb (chr_eqb Chars.percent) [] = true
  /\ Permutation (Store.searchContacts [] Samples.two_contacts)
                 (Sql.contacts Samples.two_contacts).
Proof.
  split; [reflexivity|].
  apply (searchContacts_everything [] Samples.two_contacts). reflexivity.
Defined.

(** X13: the counts of [getStats]: [total] is the number of rows an
    unbounded listing returns, neither [with_names] nor [with_companies]
    exceeds it, and a PUT changes [total] in neither copy. *)
Theorem getStats_counts (now : N) (p : Sql.idparam) (b : Http.put_body) (d : Sql.db) :
  StoreQueries.total (StoreQueries.getStats d)
  = length (StoreQueries.getAllContacts (-1) d)
  /\ StoreQueries.with_names (StoreQueries.getStats d)
     <= StoreQueries.total (StoreQueries.getStats d)
  /\ StoreQueries.with_companies (StoreQueries.getStats d)
     <= StoreQueries.total (StoreQueries.getStats d)
  /\ StoreQueries.total (StoreQueries.getStats (fst (ServerA.put_contact now p b d)))
     = StoreQueries.total (StoreQueries.getStats d)
  /\ StoreQueries.total (StoreQueries.getStats (fst (ServerB.put_contact now p b d)))
     = StoreQueries.total (StoreQueries.getStats d).
Proof.
  unfold StoreQueries.getStats. cbn [StoreQueries.total StoreQueries.with_names
                                      StoreQueries.with_companies].
  split.
  { unfold StoreQueries.getAllContacts, StoreQueries.limit_rows. simpl.
    symmetry. apply Permutation_length, order_by_perm. }
  split; [apply filter_length_le|]. split; [apply filter_length_le|].
  destruct (put_contact_rows now p b d) as [HA HB].
  rewrite HA, HB, length_map. split; reflexivity.
Qed.

(* ================================================================== *)
(** * The message handler on a consistent store *)
(* ================================================================== *)

Section HandlerSpec.
Import Sql Bot Spec Inv.

Lemma parsed_entries_ok (text : jsstring) :
  Forall entry_ok (parsePhoneNumbers text).
Proof.
  unfold parsePhoneNumbers. apply Forall_map. apply Forall_forall.
  intros m _. unfold entry_ok. cbn [original normalized].
  symmetry. apply normalizePhone_trim.
Qed.

(** On a consistent store a key that is not found means the original is
    not stored either. *)
Lemma consistent_fresh (d : db) (o n : jsstring) :
  consistent d -> n = normalizePhone o ->
  Store.findContactByPhone n d = None ->
  existsb (collides o n) (contacts d) = false.
Proof.
  intros Hc Hn Hfind. apply fresh_rows.
  unfold Store.findContactByPhone, select_by_normalized in Hfind.
  apply find_none_forall in Hfind. unfold consistent in Hc.
  rewrite Forall_forall in *. intros c Hin.
  specialize (Hc c Hin). specialize (Hfind c Hin). cbv beta in Hfind.
  apply str_eqb_neq in Hfind. split; [|exact Hfind].
  intros Hp. apply Hfind. rewrite Hc, Hp. symmetry. exact Hn.
Qed.

Lemma block_found (g : bool) (ph : phone_entry) (c : contact) :
  block g ph (Some c) = Some (block_text ph (Some c)).
Proof. unfold block_text, block. reflexivity. Qed.

Lemma findContactByPhone_kept (n : jsstring) (d d' : db) (more : list contact)
      (c : contact) :
  contacts d' = contacts d ++ more ->
  Store.findContactByPhone n d = Some c -> Store.findContactByPhone n d' = Some c.
Proof.
  unfold Store.findContactByPhone, select_by_normalized. intros -> H.
  apply find_kept. exact H.
Qed.

Variable saveContact :
  N -> jsstring -> jsstring -> sqltext -> sqltext -> sqltext -> db -> db * N.
Variable guarded : bool.
Variable on_error : outcome.

Hypothesis save_fresh : forall now p n nm co cx d,
  existsb (collides p n) (contacts d) = false ->
  fst (saveContact now p n nm co cx d)
  = append_contact (new_contact now p n nm co cx d) d.

(** The loop on a consistent store: rows are only appended, one per key
    not seen before; every phone is stored afterwards; no block fails. *)
Lemma each_phone_spec (now : N) (text : jsstring) :
  forall phones responses d,
    consistent d -> Forall entry_ok phones ->
    exists added,
      let r := each_phone saveContact guarded now text phones responses d in
      contacts (fst r) = contacts d ++ added
      /\ consistent (fst r)
      /\ Forall (fun c => exists ph, In ph phones /\ sighting now text ph c) added
      /\ snd r = Some (responses ++
                        map (fun ph => block_text ph
                               (Store.findContactByPhone (normalized ph) (fst r)))
                            phones).
Proof.
  induction phones as [|ph phones IH]; intros responses d Hc Hok.
  - exists []. cbn. rewrite !app_nil_r. repeat split; auto.
  - apply Forall_cons_iff in Hok. destruct Hok as [Hph Hok].
    cbn [each_phone].
    destruct (Store.findContactByPhone (normalized ph) d) as [c|] eqn:Hfind.
    + rewrite block_found.
      destruct (IH (responses ++ [block_text ph (Some c)]) d Hc Hok)
        as (added & Hrows & Hc' & Hadded & Hsnd).
      exists added. cbv zeta in *. repeat split; try assumption.
      * eapply Forall_impl; [|exact Hadded]. cbv beta.
        intros c0 (ph0 & Hin & Hs). exists ph0. split; [right; exact Hin|exact Hs].
      * rewrite Hsnd, <- app_assoc. cbn [map app].
        erewrite findContactByPhone_kept; [reflexivity|exact Hrows|exact Hfind].
    + pose proof (@consistent_fresh _ _ _ Hc Hph Hfind) as Hfresh.
      pose proof (save_fresh now (original ph) (normalized ph) None None
                             (Some (substring_to 200 text)) d Hfresh) as Hsave.
      destruct (saveContact now (original ph) (normalized ph) None None
                            (Some (substring_to 200 text)) d) as [d1 contactId].
      cbn [fst] in Hsave. subst d1.
      set (new := new_contact now (original ph) (normalized ph) None None
                              (Some (substring_to 200 text)) d) in *.
      assert (Hnew : Store.findContactByPhone (normalized ph) (append_contact new d)
                     = Some new) by (apply find_new_contact; exact Hfresh).
      rewrite Hnew, block_found.
      assert (Hc1 : consistent (append_contact new d)).
      { unfold consistent. cbn [contacts append_contact]. apply Forall_app.
        split; [exact Hc|]. constructor; [exact Hph|constructor]. }
      destruct (IH (responses ++ [block_text ph (Some new)]) _ Hc1 Hok)
        as (added & Hrows & Hc' & Hadded & Hsnd).
      exists (new :: added). cbv zeta in *. repeat split; try assumption.
      * rewrite Hrows. cbn [contacts append_contact]. rewrite <- app_assoc.
        reflexivity.
      * constructor.
        -- exists ph. split; [left; reflexivity|]. repeat split; reflexivity.
        -- eapply Forall_impl; [|exact Hadded]. cbv beta.
           intros c0 (ph0 & Hin & Hs). exists ph0. split; [right; exact Hin|exact Hs].
      * rewrite Hsnd, <- app_assoc. cbn [map app].
        erewrite findContactByPhone_kept; [reflexivity|exact Hrows|exact Hnew].
Qed.

(** Where every key is stored already, the loop writes nothing. *)
Lemma each_phone_found (now : N) (text : jsstring) (d : db) :
  forall phones responses,
    Forall (fun ph => Store.findContactByPhone (normalized ph) d <> None) phones ->
    each_phone saveContact guarded now text phones responses d
    = (d, Some (responses ++
                 map (fun ph => block_text ph
                        (Store.findContactByPhone (normalized ph) d)) phones)).
Proof.
  induction phones as [|ph phones IH]; intros responses Hall.
  - cbn. rewrite app_nil_r. reflexivity.
  - apply Forall_cons_iff in Hall. destruct Hall as [Hph Hall].
    cbn [each_phone map].
    destruct (Store.findContactByPhone (normalized ph) d) as [c|]; [|congruence].
    rewrite block_found, IH by assumption. rewrite <- app_assoc. reflexivity.
Qed.

Lemma each_phone_stored (now : N) (text : jsstring) (phones : list phone_entry)
      (responses : list jsstring) (d : db) :
  consistent d -> Forall entry_ok phones ->
  Forall (fun ph =>
            Store.findContactByPhone (normalized ph)
              (fst (each_phone saveContact guarded now text phones responses d))
            <> None) phones.
Proof.
  revert responses d.
  induction phones as [|ph phones IH]; intros responses d Hc Hok; [constructor|].
  apply Forall_cons_iff in Hok. destruct Hok as [Hph Hok].
  destruct (@each_phone_spec now text (ph :: phones) responses d Hc
              (Forall_cons _ Hph Hok)) as (added0 & Hrows0 & _).
  cbv zeta in Hrows0.
  cbn [each_phone] in *.
  destruct (Store.findContactByPhone (normalized ph) d) as [c|] eqn:Hfind.
  - rewrite block_found in *. constructor; [|apply IH; assumption].
    erewrite findContactByPhone_kept; [discriminate|exact Hrows0|exact Hfind].
  - pose proof (@consistent_fresh _ _ _ Hc Hph Hfind) as Hfresh.
    pose proof (save_fresh now (original ph) (normalized ph) None None
                           (Some (substring_to 200 text)) d Hfresh) as Hsave.
    destruct (saveContact now (original ph) (normalized ph) None None
                          (Some (substring_to 200 text)) d) as [d1 contactId].
    cbn [fst] in Hsave. subst d1.
    set (new := new_contact now (original ph) (normalized ph) None None
                            (Some (substring_to 200 text)) d) in *.
    assert (Hnew : Store.findContactByPhone (normalized ph) (append_contact new d)
                   = Some new) by (apply find_new_contact; exact Hfresh).
    rewrite Hnew, block_found in *.
    assert (Hc1 : consistent (append_contact new d)).
    { unfold consistent. cbn [contacts append_contact]. apply Forall_app.
      split; [exact Hc|]. constructor; [exact Hph|constructor]. }
    constructor; [|apply IH; assumption].
    destruct (@each_phone_spec now text phones
                (responses ++ [block_text ph (Some new)]) _ Hc1 Hok)
      as (added & Hrows & _).
    cbv zeta in Hrows.
    erewrite findContactByPhone_kept; [discriminate|exact Hrows|exact Hnew].
Qed.

(** The handler on a consistent store. *)
Lemma on_message_spec (now : N) (m : message) (d : db) :
  consistent d ->
  let text := match msg_text m with Some t => t | None => [] end in
  let r := on_message saveContact guarded on_error now m d in
  (exists added,
     contacts (fst r) = contacts d ++ added
     /\ Forall (fun c => exists ph, In ph (parsePhoneNumbers text)
                                    /\ sighting now text ph c) added)
  /\ consistent (fst r)
  /\ Forall (fun ph => Store.findContactByPhone (normalized ph) (fst r) <> None)
            (parsePhoneNumbers text)
  /\ snd r = match parsePhoneNumbers text with
             | [] => Silent
             | _ :: _ =>
                 Reply (join blank_line
                          (map (fun ph => block_text ph
                                  (Store.findContactByPhone (normalized ph) (fst r)))
                               (parsePhoneNumbers text)))
             end.
Proof.
  intros Hc text r. subst r. unfold on_message. fold text.
  destruct (trim text) eqn:Htrim.
  { rewrite (blank_no_entry _ Htrim). cbn [fst snd].
    repeat split; auto. exists []. rewrite app_nil_r. split; constructor. }
  destruct (parsePhoneNumbers text) as [|ph phones] eqn:Hparse.
  { cbn [fst snd]. repeat split; auto.
    exists []. rewrite app_nil_r. split; constructor. }
  assert (Hok : Forall entry_ok (ph :: phones))
    by (rewrite <- Hparse; apply parsed_entries_ok).
  pose proof (@each_phone_stored now text (ph :: phones) [] d Hc Hok) as Hstored.
  destruct (@each_phone_spec now text (ph :: phones) [] d Hc Hok)
    as (added & Hrows & Hc' & Hadded & Hsnd).
  cbv zeta in Hrows, Hc', Hsnd.
  destruct (each_phone saveContact guarded now text (ph :: phones) [] d)
    as [d' res].
  cbn [fst snd] in *. subst res. cbn [app map].
  cbn [fst snd]. repeat split; try assumption.
  exists added. split; assumption.
Qed.

End HandlerSpec.

Section HandlerAgree.
Import Sql Bot Spec Inv.

Variable saveContact :
  N -> jsstring -> jsstring -> sqltext -> sqltext -> sqltext -> db -> db * N.
Variable guarded : bool.
Variable on_error : outcome.

Hypothesis save_fresh : forall now p n nm co cx d,
  existsb (collides p n) (contacts d) = false ->
  fst (saveContact now p n nm co cx d)
  = append_contact (new_contact now p n nm co cx d) d.

Lemma ServerB_save_fresh (now : N) (p n : jsstring) (nm co cx : sqltext) (d : db) :
  existsb (collides p n) (contacts d) = false ->
  fst (ServerB.saveContact now p n nm co cx d)
  = append_contact (new_contact now p n nm co cx d) d.
Proof. intros H. unfold ServerB.saveContact. cbn [fst]. apply ignore_fresh, H. Qed.

Lemma ServerA_save_fresh (now : N) (p n : jsstring) (nm co cx : sqltext) (d : db) :
  existsb (collides p n) (contacts d) = false ->
  fst (ServerA.saveContact now p n nm co cx d)
  = append_contact (new_contact now p n nm co cx d) d.
Proof. intros H. unfold ServerA.saveContact. cbn [fst]. apply replace_fresh, H. Qed.



(** Handling again what has been handled writes nothing and answers the
    same. *)
Lemma on_message_again (now1 now2 : N) (m : message) (d : db) :
  consistent d ->
  on_message saveContact guarded on_error now2 m
             (fst (on_message saveContact guarded on_error now1 m d))
  = on_message saveContact guarded on_error now1 m d.
Proof.
  intros Hc.
  destruct (@on_message_spec saveContact guarded on_error save_fresh now1 m d Hc)
    as (_ & _ & Hstored & Hsnd).
  cbv zeta in Hstored, Hsnd.
  set (r1 := on_message saveContact guarded on_error now1 m d) in *.
  rewrite (surjective_pairing r1) at 2. rewrite Hsnd.
  unfold on_message at 1.
  set (text := match msg_text m with Some t => t | None => [] end) in *.
  destruct (trim text) eqn:Htrim.
  { rewrite (blank_no_entry _ Htrim). reflexivity. }
  destruct (parsePhoneNumbers text) as [|ph phones]; [reflexivity|].
  rewrite (each_phone_found saveContact guarded now2 text (fst r1) [] Hstored).
  reflexivity.
Qed.

End HandlerAgree.

Section ConsistentFacts.
Import Sql Spec Inv.

Lemma consistent_ignore (now : N) (p : jsstring) (nm co cx : sqltext) (d : db) :
  consistent d -> consistent (insert_or_ignore now p (normalizePhone p) nm co cx d).
Proof.
  intros H. unfold insert_or_ignore. destruct (existsb _ _); [exact H|].
  unfold consistent. cbn [contacts append_contact]. apply Forall_app.
  split; [exact H|]. constructor; [reflexivity|constructor].
Qed.

Lemma consistent_replace (now : N) (p : jsstring) (nm co cx : sqltext) (d : db) :
  consistent d -> consistent (insert_or_replace now p (normalizePhone p) nm co cx d).
Proof.
  intros H. unfold insert_or_replace, consistent.
  cbn [contacts append_contact set_contacts]. apply Forall_app. split.
  - apply Forall_forall. intros c Hc. apply filter_In in Hc.
    unfold consistent in H. rewrite Forall_forall in H. apply H. tauto.
  - constructor; [reflexivity|constructor].
Qed.

Lemma consistent_add (save : N -> jsstring -> jsstring -> sqltext -> sqltext ->
                             sqltext -> db -> db * N) :
  (forall now p nm co cx d,
     consistent d -> consistent (fst (save now p (normalizePhone p) nm co cx d))) ->
  forall now text d, consistent d -> consistent (fst (Commands.add save now text d)).
Proof.
  intros Hsave now text d Hc. unfold Commands.add.
  destruct (Commands.command_args text) as [|arg0 rest]; [exact Hc|].
  specialize (Hsave now arg0 (Commands.or_null (nth_error (arg0 :: rest) 1))
                    (Commands.or_null (nth_error (arg0 :: rest) 2)) None d Hc).
  destruct (save now arg0 (normalizePhone arg0) _ _ None d) as [d' i].
  exact Hsave.
Qed.

Lemma consistent_same_fixed (d d' : db) :
  map fixed_part (contacts d') = map fixed_part (contacts d) ->
  consistent d -> consistent d'.
Proof.
  unfold consistent. intros Hfix H.
  apply (Forall_map fixed_part
           (fun t => snd (fst t) = normalizePhone (snd (fst (fst t))))).
  rewrite Hfix. apply Forall_map. exact H.
Qed.

End ConsistentFacts.



(** X15: on a consistent store, for a message whose first 200 characters
    are well-formed UTF-16 (the cut does not fall inside a surrogate pair,
    so that the store reads the context back as written), the message
    handler of either copy changes and deletes no contact: the contacts
    before are a prefix of the contacts after, every row added is the
    sighting of an extracted phone (its original and key, no name, no
    company, the first 200 characters of the message as context), and every
    extracted phone is stored afterwards. *)
Theorem on_message_appends (now : N) (m : Bot.message) (d : Sql.db) :
  Inv.consistent d ->
  let text := match Bot.msg_text m with Some t => t | None => [] end in
  Spec.well_formed (substring_to 200 text) = true ->
  (exists added,
     Sql.contacts (fst (ServerA.on_message now m d)) = Sql.contacts d ++ added
     /\ Forall (fun c => exists ph, In ph (parsePhoneNumbers text)
                                    /\ Inv.sighting now text ph c) added)
  /\ Forall (fun ph => Store.findContactByPhone (normalized ph)
                         (fst (ServerA.on_message now m d)) <> None)
            (parsePhoneNumbers text)
  /\ (exists added,
        Sql.contacts (fst (ServerB.on_message now m d)) = Sql.contacts d ++ added
        /\ Forall (fun c => exists ph, In ph (parsePhoneNumbers text)
                                       /\ Inv.sighting now text ph c) added)
  /\ Forall (fun ph => Store.findContactByPhone (normalized ph)
                         (fst (ServerB.on_message now m d)) <> None)
            (parsePhoneNumbers text).
Proof.
  intros Hc text _.
  destruct (@on_message_spec ServerA.saveContact true (Bot.Apology Bot.apology_text)
              ServerA_save_fresh now m d Hc) as (HA1 & _ & HA2 & _).
  destruct (@on_message_spec ServerB.saveContact false Bot.LoggedOnly
              ServerB_save_fresh now m d Hc) as (HB1 & _ & HB2 & _).
  repeat split; assumption.
Qed.

Lemma on_message_appends_witness :
  Inv.consistent Sql.empty_db
  /\ Spec.well_formed (substring_to 200 (js "call me at 8-999-123-45-67 please"))
     = true
  /\ exists added,
       Sql.contacts (fst (ServerA.on_message 1 Samples.sample_message Sql.empty_db))
       = Sql.contacts Sql.empty_db ++ added
       /\ Forall (fun c => exists ph,
                      In ph (parsePhoneNumbers
                               (js "call me at 8-999-123-45-67 please"))
                      /\ Inv.sighting 1 (js "call me at 8-999-123-45-67 please") ph c)
                 added.
Proof.
  split; [constructor|]. split; [reflexivity|].
  exact (proj1 (on_message_appends 1 Samples.sample_message
                  (Forall_nil _ : Inv.consistent Sql.empty_db) eq_refl)).
Defined.

(** X16: on a consistent store, handling a message a second time (at any
    later time) leaves the store as the first handling left it and gives
    the same reply; in both copies. *)
Theorem on_message_idempotent (now1 now2 : N) (m : Bot.message) (d : Sql.db) :
  Inv.consistent d ->
  ServerA.on_message now2 m (fst (ServerA.on_message now1 m d))
  = ServerA.on_message now1 m d
  /\ ServerB.on_message now2 m (fst (ServerB.on_message now1 m d))
     = ServerB.on_message now1 m d.
Proof.
  intros Hc. split.
  - apply (@on_message_again ServerA.saveContact true (Bot.Apology Bot.apology_text)
             ServerA_save_fresh now1 now2 m d Hc).
  - apply (@on_message_again ServerB.saveContact false Bot.LoggedOnly
             ServerB_save_fresh now1 now2 m d Hc).
Qed.

Lemma on_message_idempotent_witness :
  Inv.consistent Sql.empty_db
  /\ ServerA.on_message 2 Samples.sample_message
       (fst (ServerA.on_message 1 Samples.sample_message Sql.empty_db))
     = ServerA.on_message 1 Samples.sample_message Sql.empty_db.
Proof.
  split; [constructor|].
  exact (proj1 (on_message_idempotent 1 2 Samples.sample_message
                  (Forall_nil _ : Inv.consistent Sql.empty_db))).
Defined.



(** X18: consistency of the store (every normalized_phone is
    [normalizePhone] of the row's phone) is kept by the message handler,
    by the [/add] command and by the PUT handler, in both copies. *)
Theorem consistency_kept (now : N) (m : Bot.message) (text : jsstring)
        (i : Sql.idparam) (b : Http.put_body) (d : Sql.db) :
  Inv.consistent d ->
  Inv.consistent (fst (ServerA.on_message now m d))
  /\ Inv.consistent (fst (ServerB.on_message now m d))
  /\ Inv.consistent (fst (CommandsA.add now text d))
  /\ Inv.consistent (fst (CommandsB.add now text d))
  /\ Inv.consistent (fst (ServerA.put_contact now i b d))
  /\ Inv.consistent (fst (ServerB.put_contact now i b d)).
Proof.
  intros Hc.
  split; [apply (@on_message_spec ServerA.saveContact true
                   (Bot.Apology Bot.apology_text) ServerA_save_fresh now m d Hc)|].
  split; [apply (@on_message_spec ServerB.saveContact false Bot.LoggedOnly
                   ServerB_save_fresh now m d Hc)|].
  split; [apply consistent_add; [intros; apply consistent_replace|]; assumption|].
  split; [apply consistent_add; [intros; apply consistent_ignore|]; assumption|].
  split; (eapply consistent_same_fixed; [|exact Hc]); apply put_contact_fixed_part.
Qed.

Lemma consistency_kept_witness :
  Inv.consistent Samples.one_contact
  /\ Inv.consistent (fst (CommandsA.add 6 (js "/add 89991234567 Ann")
                            Samples.one_contact)).
Proof.
  assert (H : Inv.consistent Samples.one_contact) by (repeat constructor).
  split; [exact H|].
  apply (consistency_kept 6 Samples.sample_message (js "/add 89991234567 Ann")
           (Sql.IdInt 1) (Http.body_with_name None) H).
Defined.

(* ================================================================== *)
(** * The digits normalizePhone keeps *)
(* ================================================================== *)

Section DigitFacts.
Import Spec.

Lemma digits_of_kept (s : jsstring) :
  filter isDigit (filter keep s) = filter isDigit s.
Proof.
  induction s as [|c s IH]; simpl; [reflexivity|].
  unfold keep at 1. destruct (isDigit c) eqn:Hd; simpl.
  - rewrite Hd, IH. reflexivity.
  - destruct (isPlus c); simpl; [rewrite Hd|]; exact IH.
Qed.

Lemma rules_digits (s : jsstring) :
  filter isDigit (rules s) = filter isDigit s
  \/ (starts Chars.d8 s = true
      /\ filter isDigit (rules s) = Chars.d7 :: tl (filter isDigit s))
  \/ filter isDigit (rules s) = Chars.d7 :: filter isDigit s.
Proof.
  unfold rules.
  destruct (starts Chars.d8 s) eqn:H8.
  - right. left. split; [reflexivity|].
    destruct s as [|c s']; [discriminate|].
    simpl in H8. unfold chr_eqb in H8. apply N.eqb_eq in H8. subst c.
    reflexivity.
  - destruct (starts Chars.d7 s && negb (startsWith s [Chars.plus; Chars.d7]));
      [left; reflexivity|].
    destruct (ten_digits s && starts Chars.d9 s); [right; right; reflexivity|].
    destruct (ten_digits s); [right; right; reflexivity|left; reflexivity].
Qed.

Lemma rules_length (s : jsstring) : length (rules s) <= length s + 2.
Proof.
  unfold rules.
  repeat match goal with
         | |- context [if ?b then _ else _] => destruct b
         end; simpl; try lia.
  destruct s; simpl; lia.
Qed.

End DigitFacts.

(** X21: [normalizePhone] keeps the digits of its input in their order:
    the digits of the result are the digits of the input, or, the first of
    these being an 8, these with that 8 turned into 7, or these with a 7
    put in front; and the result is at most two characters longer than the
    input. *)
Theorem normalizePhone_digits (raw : jsstring) :
  (filter isDigit (normalizePhone raw) = filter isDigit raw
   \/ (exists rest, filter isDigit raw = Chars.d8 :: rest
                    /\ filter isDigit (normalizePhone raw) = Chars.d7 :: rest)
   \/ filter isDigit (normalizePhone raw) = Chars.d7 :: filter isDigit raw)
  /\ length (filter isDigit raw) <= length (filter isDigit (normalizePhone raw))
  /\ length (normalizePhone raw) <= length raw + 2.
Proof.
  rewrite normalizePhone_rules. unfold Spec.normalize_amended, Spec.strip_all.
  pose proof (rules_digits (filter Spec.keep raw)) as H.
  pose proof (rules_length (filter Spec.keep raw)) as Hlen.
  pose proof (filter_length_le Spec.keep raw) as Hle.
  rewrite digits_of_kept in H.
  assert (H8 : Spec.starts Chars.d8 (filter Spec.keep raw) = true ->
               exists rest, filter isDigit raw = Chars.d8 :: rest).
  { intros Hs. rewrite <- digits_of_kept.
    destruct (filter Spec.keep raw) as [|c s]; [discriminate|].
    simpl in Hs. unfold chr_eqb in Hs. apply N.eqb_eq in Hs. subst c.
    exists (filter isDigit s). reflexivity. }
  split; [|split; [|lia]].
  - destruct H as [H|[[Hs H]|H]]; auto.
    right. left. destruct (H8 Hs) as [rest Hrest].
    exists rest. split; [exact Hrest|]. rewrite H, Hrest. reflexivity.
  - destruct H as [H|[[Hs H]|H]]; rewrite H; simpl; try lia.
    destruct (H8 Hs) as [rest Hrest]. rewrite Hrest. simpl. lia.
Qed.

(** X22: the normalized form of every extracted phone holds at least two
    digits (the two the match is anchored on): it is never empty, and the
    extractor asks for no more digits than that. *)
Theorem extracted_normalized_digits (text : jsstring) :
  Forall (fun e => 2 <= length (filter isDigit (normalized e)))
         (parsePhoneNumbers text).
Proof.
  unfold parsePhoneNumbers. apply Forall_map. cbn [normalized].
  eapply Forall_impl; [|apply phone_matches_shaped]. cbv beta.
  intros m (sign & d1 & interior & d2 & Hm & _ & Hd1 & Hd2 & _).
  rewrite normalizePhone_rules. unfold Spec.normalize_amended, Spec.strip_all.
  pose proof (rules_digits (filter Spec.keep m)) as H.
  rewrite digits_of_kept in H.
  assert (Hraw : 2 <= length (filter isDigit m)).
  { subst m. rewrite !filter_app, !length_app. cbn [filter].
    rewrite Hd1, Hd2. simpl. lia. }
  destruct H as [H|[[_ H]|H]]; rewrite H; simpl; try lia.
  destruct (filter isDigit m) as [|c [|c' l]]; simpl in *; lia.
Qed.
